(** * Resume parser: a shallow embedding of [backend/app/services/resume_parser.py]

    Python strings are sequences of Unicode code points; they are modelled
    as lists of code points ([N]).  Character classes ([str.isspace], the
    regular-expression classes [\d] and [\s]) and the case mapping of
    [str.lower] are written out for the code points below 256, where they
    agree with Python; code points from 256 on are caseless, non-digit and
    non-space in this model. *)

From Stdlib Require Import ZArith NArith QArith Lia List Bool.
From Stdlib Require Import Strings.Ascii Strings.String Strings.Byte.
From Stdlib Require Import Sorting.Sorted Sorting.Permutation.
From stdpp Require Import base decidable countable gmap list sorting.

Open Scope N_scope.

(** ** Text *)

Abbreviation text := (list N).

(** A character and a string literal of the source, as code points. *)
Definition ch (a : ascii) : N := N_of_ascii a.

Definition str (s : string) : text :=
  List.map ch (list_ascii_of_string s).

Definition in_range (lo hi c : N) : bool := (lo <=? c) && (c <=? hi).

(** [\d] of [re], [str.isdigit] on the decimal digits. *)
Definition is_digit (c : N) : bool := in_range 48 57 c.

(** [str.isspace], also the class [\s] of [re]: TAB..CR, FS..US, space,
    NEL and NBSP. *)
Definition is_space (c : N) : bool :=
  in_range 9 13 c || in_range 28 31 c || (c =? 32) || (c =? 133) || (c =? 160).

Definition is_ascii_upper (c : N) : bool := in_range 65 90 c.
Definition is_ascii_lower (c : N) : bool := in_range 97 122 c.
Definition is_ascii_letter (c : N) : bool := is_ascii_upper c || is_ascii_lower c.

(** The upper-case letters below 256: A..Z and the Latin-1 capitals
    (U+00C0..U+00DE without the multiplication sign U+00D7). *)
Definition is_upper (c : N) : bool :=
  is_ascii_upper c || (in_range 192 222 c && negb (c =? 215)).

Definition lower_char (c : N) : N := if is_upper c then c + 32 else c.

(** [str.lower()] *)
Definition lower (s : text) : text := List.map lower_char s.

Fixpoint lstrip (s : text) : text :=
  match s with
  | c :: s' => if is_space c then lstrip s' else s
  | [] => []
  end.

Definition rstrip (s : text) : text := rev (lstrip (rev s)).

(** [str.strip()] *)
Definition strip (s : text) : text := rstrip (lstrip s).

(** [a == b] on strings *)
Definition text_eqb (a b : text) : bool := bool_decide (a = b).

(** [t.startswith(s)] *)
Fixpoint starts_with (s t : text) : bool :=
  match s, t with
  | [], _ => true
  | a :: s', b :: t' => (a =? b) && starts_with s' t'
  | _ :: _, [] => false
  end.

(** [s in t] on strings: [s] occurs as a contiguous substring of [t]. *)
Fixpoint contains (s t : text) : bool :=
  starts_with s t ||
  match t with
  | [] => false
  | _ :: t' => contains s t'
  end.

Fixpoint find_from (s t : text) (i : Z) : Z :=
  if starts_with s t then i
  else match t with
       | [] => (-1)%Z
       | _ :: t' => find_from s t' (i + 1)%Z
       end.

(** [t.find(s)]: the lowest offset at which [s] occurs in [t], or -1. *)
Definition find (t s : text) : Z := find_from s t 0%Z.

(** [sep.join(parts)] *)
Fixpoint join (sep : text) (parts : list text) : text :=
  match parts with
  | [] => []
  | [p] => p
  | p :: ps => p ++ sep ++ join sep ps
  end.

(** The greatest number of digits [int] converts (the default of
    [sys.set_int_max_str_digits]). *)
Definition INT_MAX_STR_DIGITS : Z := 4300.

(** [int(s)] on a string of decimal digits; [None] stands for the
    [ValueError] raised on any other character, on the empty string and on
    a string with more digits than the limit. *)
Fixpoint int_acc (acc : Z) (s : text) : option Z :=
  match s with
  | [] => Some acc
  | c :: s' =>
      if is_digit c then int_acc (10 * acc + Z.of_N (c - 48))%Z s' else None
  end.

Definition py_int (s : text) : option Z :=
  match s with
  | [] => None
  | _ =>
      if (INT_MAX_STR_DIGITS <? Z.of_nat (length s))%Z then None
      else int_acc 0%Z s
  end.

(** ** Python's stable [sorted(xs, key=...)] *)

Section PySorted.
Context {A : Type} (key : A -> Z).

(** [x] goes in front of the first element whose key is not smaller, so
    elements with equal keys keep the order they had in the input. *)
Fixpoint insert_by_key (x : A) (l : list A) : list A :=
  match l with
  | [] => [x]
  | y :: l' =>
      if (key x <=? key y)%Z then x :: l else y :: insert_by_key x l'
  end.

Fixpoint py_sorted (l : list A) : list A :=
  match l with
  | [] => []
  | x :: l' => insert_by_key x (py_sorted l')
  end.

(** The order [sorted] establishes between an element and a later one. *)
Definition key_le (a b : A) : Prop := (key a <= key b)%Z.

End PySorted.

(** ** Regular expressions

    A backtracking matcher for the fragment of [re] the parser uses:
    classes, literals, sequence, alternation (left branch first), greedy
    [?], greedy repetition of a class with a lower bound, one capturing
    group and [$].  The continuation receives the rest of the input and the
    groups closed so far; a failing continuation makes the matcher try the
    next alternative, as [re] does. *)

Inductive regex : Type :=
| Cls (p : N -> bool)
| Lit (s : text)
| Seq (r1 r2 : regex)
| Alt (r1 r2 : regex)
| Opt (r : regex)
| Rep (p : N -> bool) (lo : nat)
| Grp (r : regex)
| Eol.

(** [p{lo,}], greedy: one more character first, then stop here if the
    lower bound is reached. *)
Fixpoint rep_greedy {A} (p : N -> bool) (lo : nat) (s : text)
    (k : text -> option A) : option A :=
  let stop := match lo with O => k s | S _ => None end in
  match s with
  | c :: s' =>
      if p c then
        match rep_greedy p (Nat.pred lo) s' k with
        | Some a => Some a
        | None => stop
        end
      else stop
  | [] => stop
  end.

Fixpoint rmatch {A} (r : regex) (s : text) (caps : list text)
    (k : text -> list text -> option A) : option A :=
  match r with
  | Cls p =>
      match s with
      | c :: s' => if p c then k s' caps else None
      | [] => None
      end
  | Lit l =>
      if starts_with l s then k (drop (length l) s) caps else None
  | Seq r1 r2 => rmatch r1 s caps (fun s1 c1 => rmatch r2 s1 c1 k)
  | Alt r1 r2 =>
      match rmatch r1 s caps k with
      | Some a => Some a
      | None => rmatch r2 s caps k
      end
  | Opt r1 =>
      match rmatch r1 s caps k with
      | Some a => Some a
      | None => k s caps
      end
  | Rep p lo => rep_greedy p lo s (fun s1 => k s1 caps)
  | Grp r1 =>
      rmatch r1 s caps
        (fun s1 c1 => k s1 (c1 ++ [take (length s - length s1) s]))
  | Eol =>
      match s with
      | [] => k s caps
      | [c] => if c =? 10 then k s caps else None
      | _ => None
      end
  end.

(** A match object: the matched text ([m.group(0)]), the groups
    ([m.group(1)], ...) and the input after the match. *)
Record match_obj : Type := MatchObj {
  m_whole : text;
  m_groups : list text;
  m_rest : text
}.

(** [pattern.match(s)]: a match starting at the first character. *)
Definition re_match (r : regex) (s : text) : option match_obj :=
  rmatch r s []
    (fun rest caps => Some (MatchObj (take (length s - length rest) s) caps rest)).

(** [pattern.search(s)]: the match at the leftmost position that has one. *)
Fixpoint search (r : regex) (s : text) : option match_obj :=
  match re_match r s with
  | Some m => Some m
  | None =>
      match s with
      | [] => None
      | _ :: s' => search r s'
      end
  end.

(** What [findall] lists for a match: group 1 when the pattern has a
    group, the whole match otherwise. *)
Definition findall_item (m : match_obj) : text :=
  match m_groups m with
  | g :: _ => g
  | [] => m_whole m
  end.

(** [pattern.findall(s)]: the matches from left to right, none overlapping
    an earlier one.  [skip] counts the characters of the last match that
    are still to be passed over. *)
Fixpoint findall_skip (r : regex) (skip : nat) (s : text) : list text :=
  match skip with
  | S n =>
      match s with
      | [] => []
      | _ :: s' => findall_skip r n s'
      end
  | O =>
      match re_match r s with
      | Some m =>
          findall_item m ::
          match s with
          | [] => []
          | _ :: s' => findall_skip r (Nat.pred (length (m_whole m))) s'
          end
      | None =>
          match s with
          | [] => []
          | _ :: s' => findall_skip r 0 s'
          end
      end
  end.

Definition findall (r : regex) (s : text) : list text := findall_skip r 0 s.

(** The strings a pattern can match, read off its syntax. *)
Fixpoint lang (r : regex) (m : text) : Prop :=
  match r with
  | Cls p => exists c, m = [c] /\ p c = true
  | Lit l => m = l
  | Seq r1 r2 => exists m1 m2, m = m1 ++ m2 /\ lang r1 m1 /\ lang r2 m2
  | Alt r1 r2 => lang r1 m \/ lang r2 m
  | Opt r1 => m = [] \/ lang r1 m
  | Rep p lo => (lo <= length m)%nat /\ Forall (fun c => p c = true) m
  | Grp r1 => lang r1 m
  | Eol => m = []
  end.

(** *** The patterns of the module *)

Definition is_chr (a : ascii) (c : N) : bool := c =? ch a.

(** [[\d\-\s()]] *)
Definition phone_cls (c : N) : bool :=
  is_digit c || is_chr "-" c || is_space c || is_chr "(" c || is_chr ")" c.

(** [PHONE_RE = re.compile(r"(\+?\d[\d\-\s()]{7,}\d)")] *)
Definition PHONE_RE : regex :=
  Grp (Seq (Opt (Cls (is_chr "+")))
      (Seq (Cls is_digit)
      (Seq (Rep phone_cls 7)
           (Cls is_digit)))).

(** [[a-zA-Z0-9_.+-]], [[a-zA-Z0-9-]] and [[a-zA-Z0-9-.]] *)
Definition email_local_cls (c : N) : bool :=
  is_ascii_letter c || is_digit c || is_chr "_" c || is_chr "." c
  || is_chr "+" c || is_chr "-" c.

Definition email_host_cls (c : N) : bool :=
  is_ascii_letter c || is_digit c || is_chr "-" c.

Definition email_tail_cls (c : N) : bool :=
  is_ascii_letter c || is_digit c || is_chr "-" c || is_chr "." c.

(** [EMAIL_RE = re.compile(r"[a-zA-Z0-9_.+-]+@[a-zA-Z0-9-]+\.[a-zA-Z0-9-.]+")] *)
Definition EMAIL_RE : regex :=
  Seq (Rep email_local_cls 1)
  (Seq (Cls (is_chr "@"))
  (Seq (Rep email_host_cls 1)
  (Seq (Cls (is_chr "."))
       (Rep email_tail_cls 1)))).

(** [YEARS_EXP_RE = re.compile(r"(\d+)\+?\s*(?:years|yrs|year)")] *)
Definition YEARS_EXP_RE : regex :=
  Seq (Grp (Rep is_digit 1))
  (Seq (Opt (Cls (is_chr "+")))
  (Seq (Rep is_space 0)
       (Alt (Lit (str "years")) (Alt (Lit (str "yrs")) (Lit (str "year")))))).

(** [r"(20\d{2}|19\d{2})"] *)
Definition YEAR_RE : regex :=
  Grp (Alt (Seq (Lit (str "20")) (Seq (Cls is_digit) (Cls is_digit)))
           (Seq (Lit (str "19")) (Seq (Cls is_digit) (Cls is_digit)))).

(** [[a-zA-Z#+.\-]] and [r"[a-zA-Z#+.\-]{2,}"] *)
Definition token_cls (c : N) : bool :=
  is_ascii_letter c || is_chr "#" c || is_chr "+" c || is_chr "." c
  || is_chr "-" c.

Definition TOKEN_RE : regex := Rep token_cls 2.

(** [[A-Za-z .'-]] and [r"^[A-Za-z .'-]+$"], which the code applies with
    [re.match], that is, at the start of the string. *)
Definition name_cls (c : N) : bool :=
  is_ascii_letter c || is_chr " " c || is_chr "." c || is_chr "'" c
  || is_chr "-" c.

Definition NAME_RE : regex := Seq (Rep name_cls 1) Eol.

(** ** Errors and global state

    A call either returns a value or raises; the module's two globals
    ([_skills_master] and [_nlp]) are threaded through, and keep what was
    stored in them when a later step raises. *)

Inductive exn : Type :=
| FileNotFoundError (path : text)
| IsADirectoryError (path : text)
| PermissionError (path : text)
| OSError (path : text)
| ValueError
| UnicodeDecodeError
| JSONDecodeError
| AttributeError
| TypeError.

Inductive result (A : Type) : Type :=
| Ok (a : A)
| Raise (e : exn).
Arguments Ok {A} a.
Arguments Raise {A} e.

(** ** Documents of the NLP pipeline *)

Record span : Type := Span { span_text : text; label_ : text }.

(** A document: its noun chunks and entities, and whether it carries the
    dependency parse ([doc.has_annotation("DEP")]), which a pipeline
    without a parser, such as [spacy.blank("en")], does not produce. *)
Record doc : Type := Doc {
  noun_chunks : list span;
  ents : list span;
  has_dep : bool
}.

(** Reading [doc.noun_chunks] raises [ValueError] (E029) on a document
    without the dependency parse; a document without tokens, that of the
    empty text, counts as parsed. *)
Definition noun_chunks_available (input : text) (d : doc) : bool :=
  has_dep d || text_eqb input [].

Abbreviation pipeline := (text -> doc).

Record state : Type := State {
  _skills_master : option (gset text);
  _nlp : option pipeline
}.

Definition M (A : Type) : Type := state -> result A * state.

Definition ret {A} (a : A) : M A := fun st => (Ok a, st).

Definition raise {A} (e : exn) : M A := fun st => (Raise e, st).

Definition bind {A B} (m : M A) (f : A -> M B) : M B :=
  fun st =>
    match m st with
    | (Ok a, st') => f a st'
    | (Raise e, st') => (Raise e, st')
    end.

Notation "'do' x <- m ; k" := (bind m (fun x => k))
  (at level 10, x name, m at level 100, k at level 200).

(** ** The world outside the module *)

(** What a path names on the file system: a directory, a file that can be
    read, or an entry whose [open] raises (no permission, for one). *)
Inductive node : Type :=
| Directory
| RegularFile (content : list byte)
| Unreadable (e : exn).

(** What [page.extract_text()] does on one page of a PDF. *)
Inductive page : Type :=
| PageText (t : option text)
| PageRaises.

(** A parsed JSON value as far as the loader looks at it: an entry of a
    list is a string or something else, of which only the truth value
    matters; the document is a list, an object, a string, or another
    scalar. *)
Inductive json_entry : Type :=
| JString (s : text)
| JOther (truthy : bool).

Inductive json_doc : Type :=
| JList (l : list json_entry)
| JDict (d : list (text * json_entry))
| JStr (s : text)
| JScalar.

Record world : Type := World {
  (** the file system: what [Path(path).exists()] and the readers see *)
  fs : text -> option node;
  (** the file [DATA_DIR/SKILLS_FILE]: absent, or what [open] and
      [json.load] give for it *)
  skills_file : option (result json_doc);
  (** [pdfplumber.open(path)] and its pages; [None] when opening raises *)
  pdfplumber_open : text -> option (list page);
  (** [docx2txt.process(path)]; [None] when it raises *)
  docx2txt_process : text -> option text;
  (** [spacy.load("en_core_web_sm")]; [None] when it raises *)
  spacy_load : option pipeline;
  (** [spacy.blank("en")] *)
  spacy_blank : pipeline;
  (** [rapidfuzz.fuzz.token_sort_ratio], a score from 0 to 100 *)
  token_sort_ratio : text -> text -> Q;
  (** the order in which a set of strings is iterated *)
  set_order : gset text -> list text;
  set_order_perm : forall X, Permutation (set_order X) (elements X)
}.

(** ** Lazy globals *)

Definition _get_nlp (w : world) : M pipeline :=
  fun st =>
    match _nlp st with
    | Some nlp => (Ok nlp, st)
    | None =>
        let nlp := match spacy_load w with
                   | Some nlp => nlp
                   | None => spacy_blank w
                   end in
        (Ok nlp, State (_skills_master st) (Some nlp))
    end.

Definition fallback_skills : list text :=
  List.map str
    ["python"; "java"; "c++"; "sql"; "django"; "flask"; "react"; "node.js";
     "docker"; "kubernetes"; "aws"; "git"; "nlp"; "tensorflow";
     "pytorch"]%string.

(** Truth value of a list entry: [if s]. *)
Definition truthy (e : json_entry) : bool :=
  match e with
  | JString s => negb (Nat.eqb (length s) 0)
  | JOther b => b
  end.

(** [set(s.strip().lower() for s in skills if s)]; an entry that passes the
    test and is not a string has no [strip]. *)
Fixpoint normalized_set (skills : list json_entry) : result (gset text) :=
  match skills with
  | [] => Ok ∅
  | e :: rest =>
      if truthy e then
        match e with
        | JString s =>
            match normalized_set rest with
            | Ok v => Ok ({[ lower (strip s) ]} ∪ v)
            | Raise x => Raise x
            end
        | JOther _ => Raise AttributeError
        end
      else normalized_set rest
  end.

(** The entries the comprehension iterates over: the keys of an object,
    the elements of a list, the characters of a string. *)
Definition skills_of (data : json_doc) : result (list json_entry) :=
  match data with
  | JDict d => Ok (List.map (fun kv => JString (fst kv)) d)
  | JList l => Ok l
  | JStr s => Ok (List.map (fun c => JString [c]) s)
  | JScalar => Raise TypeError
  end.

(** The body of [_load_skills_master] when the global is still [None]. *)
Definition read_skills_master (w : world) : result (gset text) :=
  match skills_file w with
  | None => Ok (list_to_set fallback_skills)
  | Some (Raise e) => Raise e
  | Some (Ok data) =>
      match skills_of data with
      | Ok skills => normalized_set skills
      | Raise e => Raise e
      end
  end.

Definition _load_skills_master (w : world) : M (gset text) :=
  fun st =>
    match _skills_master st with
    | Some v => (Ok v, st)
    | None =>
        match read_skills_master w with
        | Ok v => (Ok v, State (Some v) (_nlp st))
        | Raise e => (Raise e, st)
        end
    end.

(** ** Text extraction *)

(** *** Decoding UTF-8

    The decoder cuts the bytes into code points and malformed runs: a byte
    that cannot start a sequence is a run of its own, a truncated sequence
    is a run of the bytes that were still well formed.  The [errors]
    argument decides what a malformed run becomes. *)

Inductive utf8_item : Type :=
| Decoded (c : N)
| Malformed (len : nat).

Definition is_cont (b : N) : bool := in_range 128 191 b.

(** The second byte admitted after the lead byte [b0] of a three- or
    four-byte sequence (no overlong forms, no surrogates, at most
    U+10FFFF). *)
Definition second_ok (b0 b1 : N) : bool :=
  if b0 =? 224 then in_range 160 191 b1
  else if b0 =? 237 then in_range 128 159 b1
  else if b0 =? 240 then in_range 144 191 b1
  else if b0 =? 244 then in_range 128 143 b1
  else is_cont b1.

Definition cont_bits (b : N) : N := N.land b 63.

Fixpoint utf8_scan (bs : list byte) : list utf8_item :=
  match bs with
  | [] => []
  | x0 :: r0 =>
      let b0 := Byte.to_N x0 in
      if b0 <? 128 then Decoded b0 :: utf8_scan r0
      else if in_range 194 223 b0 then
        match r0 with
        | x1 :: r1 =>
            let b1 := Byte.to_N x1 in
            if is_cont b1
            then Decoded (N.lor (N.shiftl (N.land b0 31) 6) (cont_bits b1))
                   :: utf8_scan r1
            else Malformed 1 :: utf8_scan r0
        | [] => [Malformed 1]
        end
      else if in_range 224 239 b0 then
        match r0 with
        | x1 :: r1 =>
            let b1 := Byte.to_N x1 in
            if second_ok b0 b1 then
              match r1 with
              | x2 :: r2 =>
                  let b2 := Byte.to_N x2 in
                  if is_cont b2
                  then Decoded (N.lor (N.shiftl (N.land b0 15) 12)
                                 (N.lor (N.shiftl (cont_bits b1) 6)
                                        (cont_bits b2)))
                         :: utf8_scan r2
                  else Malformed 2 :: utf8_scan r1
              | [] => [Malformed 2]
              end
            else Malformed 1 :: utf8_scan r0
        | [] => [Malformed 1]
        end
      else if in_range 240 244 b0 then
        match r0 with
        | x1 :: r1 =>
            let b1 := Byte.to_N x1 in
            if second_ok b0 b1 then
              match r1 with
              | x2 :: r2 =>
                  let b2 := Byte.to_N x2 in
                  if is_cont b2 then
                    match r2 with
                    | x3 :: r3 =>
                        let b3 := Byte.to_N x3 in
                        if is_cont b3
                        then Decoded (N.lor (N.shiftl (N.land b0 7) 18)
                                       (N.lor (N.shiftl (cont_bits b1) 12)
                                       (N.lor (N.shiftl (cont_bits b2) 6)
                                              (cont_bits b3))))
                               :: utf8_scan r3
                        else Malformed 3 :: utf8_scan r2
                    | [] => [Malformed 3]
                    end
                  else Malformed 2 :: utf8_scan r1
              | [] => [Malformed 2]
              end
            else Malformed 1 :: utf8_scan r0
        | [] => [Malformed 1]
        end
      else Malformed 1 :: utf8_scan r0
  end.

(** The values of the [errors] argument of [bytes.decode]. *)
Inductive error_handler : Type := Strict | Ignore | Replace.

(** U+FFFD, the replacement character *)
Definition REPLACEMENT : N := 65533.

Fixpoint handle_items (h : error_handler) (items : list utf8_item)
    : option text :=
  match items with
  | [] => Some []
  | Decoded c :: rest => option_map (cons c) (handle_items h rest)
  | Malformed _ :: rest =>
      match h with
      | Strict => None
      | Ignore => handle_items h rest
      | Replace => option_map (cons REPLACEMENT) (handle_items h rest)
      end
  end.

(** [bs.decode("utf-8", errors=h)]; [None] is [UnicodeDecodeError]. *)
Definition utf8_decode (h : error_handler) (bs : list byte) : option text :=
  handle_items h (utf8_scan bs).

(** Text mode with the default [newline=None]: CR LF and a lone CR are
    read as LF. *)
Fixpoint universal_newlines (s : text) : text :=
  match s with
  | [] => []
  | c :: s' =>
      if c =? 13 then
        10 :: match s' with
              | d :: s'' =>
                  if d =? 10 then universal_newlines s''
                  else universal_newlines s'
              | [] => []
              end
      else c :: universal_newlines s'
  end.

(** [Path.read_text(encoding=..., errors=h)] on what the path names. *)
Definition read_text (h : error_handler) (path : text) (n : node)
    : result text :=
  match n with
  | Directory => Raise (IsADirectoryError path)
  | Unreadable e => Raise e
  | RegularFile bs =>
      match utf8_decode h bs with
      | Some t => Ok (universal_newlines t)
      | None => Raise UnicodeDecodeError
      end
  end.

(** *** Path suffix *)

Fixpoint split_on (sep : N) (cur : text) (s : text) : list text :=
  match s with
  | [] => [rev cur]
  | c :: s' =>
      if c =? sep then rev cur :: split_on sep [] s'
      else split_on sep (c :: cur) s'
  end.

(** [Path(path).name]: the last component that is neither empty nor a
    single dot. *)
Definition path_name (path : text) : text :=
  List.last
    (List.filter (fun part => negb (text_eqb part [])
                              && negb (text_eqb part (str ".")))
                 (split_on (ch "/") [] path))
    [].

(** [name.rfind(".")] *)
Fixpoint rfind_dot (s : text) (i : nat) (last_seen : option nat) : option nat :=
  match s with
  | [] => last_seen
  | c :: s' => rfind_dot s' (S i) (if c =? ch "." then Some i else last_seen)
  end.

(** [Path(path).suffix]: from the last dot of the name, unless the name
    starts or ends with that dot. *)
Definition path_suffix (path : text) : text :=
  let name := path_name path in
  match rfind_dot name 0 None with
  | Some i =>
      if (Nat.ltb 0 i) && (Nat.ltb i (length name - 1)) then drop i name
      else []
  | None => []
  end.

(** The texts of the pages up to the first page that raises; a page
    without text adds nothing. *)
Fixpoint page_chunks (pages : list page) : list text :=
  match pages with
  | [] => []
  | PageRaises :: _ => []
  | PageText (Some t) :: rest =>
      match t with
      | [] => page_chunks rest
      | _ => t :: page_chunks rest
      end
  | PageText None :: rest => page_chunks rest
  end.

Definition extract_text_from_pdf (w : world) (path : text) : text :=
  match pdfplumber_open w path with
  | Some pages => join (str (String "010" "")) (page_chunks pages)
  | None => []
  end.

Definition extract_text_from_docx (w : world) (path : text) : text :=
  match docx2txt_process w path with
  | Some t => t
  | None => []
  end.

Definition extract_text (w : world) (path : text) : result text :=
  match fs w path with
  | None => Raise (FileNotFoundError path)
  | Some n =>
      let suffix := lower (path_suffix path) in
      if text_eqb suffix (str ".pdf") then Ok (extract_text_from_pdf w path)
      else if text_eqb suffix (str ".docx") || text_eqb suffix (str ".doc")
      then Ok (extract_text_from_docx w path)
      else read_text Ignore path n
  end.

(** ** Information extraction *)

Record contact_info : Type := ContactInfo {
  contact_phone : option text;
  contact_email : option text
}.

Definition extract_contact_info (t : text) : contact_info :=
  let phones := findall PHONE_RE t in
  let emails := findall EMAIL_RE t in
  ContactInfo (head phones) (head emails).

(** The first attempt of [extract_experience_years]: [int(m.group(1))] of
    the first "X years" match; [None] when there is no match or [int]
    raises. *)
Definition explicit_years (t : text) : option Z :=
  match search YEARS_EXP_RE (lower t) with
  | Some m => py_int (nth 0 (m_groups m) [])
  | None => None
  end.

(** [sorted(set(int(y) for y in years))] *)
Definition distinct_years (years : list text) : list Z :=
  py_sorted (fun y => y)
    (elements (list_to_set (omap py_int years) : gset Z)).

(** The fallback: the span of the years found in the text. *)
Definition years_span (t : text) : option Z :=
  let years := findall YEAR_RE t in
  match years with
  | [] => None
  | _ :: _ =>
      let yrs := distinct_years years in
      if (2 <=? length yrs)%nat
      then Some (List.last yrs 0 - List.hd 0 yrs)%Z
      else None
  end.

Definition extract_experience_years (t : text) : option Z :=
  match explicit_years t with
  | Some n => Some n
  | None => years_span t
  end.

(** The line boundaries of [str.splitlines]. *)
Definition is_linebreak (c : N) : bool :=
  in_range 10 13 c || in_range 28 30 c || (c =? 133) || (c =? 8232)
  || (c =? 8233).

Fixpoint splitlines_acc (cur : text) (s : text) : list text :=
  match s with
  | [] => match cur with [] => [] | _ => [rev cur] end
  | c :: s' =>
      if is_linebreak c then
        rev cur ::
        match s' with
        | d :: s'' =>
            if (c =? 13) && (d =? 10) then splitlines_acc [] s''
            else splitlines_acc [] s'
        | [] => []
        end
      else splitlines_acc (c :: cur) s'
  end.

Definition splitlines (s : text) : list text := splitlines_acc [] s.

(** [s.split()]: the maximal runs without white space. *)
Fixpoint split_ws (cur : text) (s : text) : list text :=
  let flush := match cur with [] => [] | _ => [rev cur] end in
  match s with
  | [] => flush
  | c :: s' =>
      if is_space c then flush ++ split_ws [] s'
      else split_ws (c :: cur) s'
  end.

Definition nonempty (s : text) : bool := negb (Nat.eqb (length s) 0).

Fixpoint first_person (es : list span) : option text :=
  match es with
  | [] => None
  | e :: rest =>
      if text_eqb (label_ e) (str "PERSON") then Some (strip (span_text e))
      else first_person rest
  end.

Definition extract_name (w : world) (t : text) : M (option text) :=
  do nlp <- _get_nlp w;
  let d := nlp (take 2000 t) in
  match first_person (ents d) with
  | Some n => ret (Some n)
  | None =>
      let first_lines :=
        List.map strip
          (List.filter (fun l => nonempty (strip l)) (splitlines t)) in
      match first_lines with
      | candidate :: _ =>
          if (length (split_ws [] candidate) <=? 4)%nat
             && bool_decide (is_Some (re_match NAME_RE candidate))
          then ret (Some candidate)
          else ret None
      | [] => ret None
      end
  end.

(** *** Skills *)

(** [rapidfuzz.process.extractOne(query, choices, scorer=scorer)]: the
    choice with the highest score, the first of them on a tie, with its
    score and index; [None] without choices. *)
Fixpoint extractOne_from (scorer : text -> text -> Q) (query : text)
    (choices : list text) (i : nat) (best : option (text * Q * nat))
    : option (text * Q * nat) :=
  match choices with
  | [] => best
  | c :: rest =>
      let sc := scorer query c in
      let best' :=
        match best with
        | None => Some (c, sc, i)
        | Some (_, bs, _) =>
            if Qle_bool sc bs then best else Some (c, sc, i)
        end in
      extractOne_from scorer query rest (S i) best'
  end.

Definition extractOne (scorer : text -> text -> Q) (query : text)
    (choices : list text) : option (text * Q * nat) :=
  extractOne_from scorer query choices 0 None.

(** One turn of the loop over the candidates. *)
Definition fuzzy_step (scorer : text -> text -> Q) (choices : list text)
    (found : gset text) (cand : text) : gset text :=
  match extractOne scorer cand choices with
  | Some (m, score, _) =>
      if Qle_bool 80 score then {[ m ]} ∪ found else found
  | None => found
  end.

(** The candidate phrases: noun chunks of 2 to 50 characters, entities, and
    the tokens of at most 40 characters. *)
Definition candidate_phrases (d : doc) (text_low : text) : gset text :=
  let chunks :=
    List.filter (fun c => (2 <=? length c)%nat && (length c <=? 50)%nat)
      (List.map (fun c => lower (strip (span_text c))) (noun_chunks d)) in
  let entities := List.map (fun e => lower (strip (span_text e))) (ents d) in
  let tokens :=
    List.filter (fun t => (length t <=? 40)%nat)
      (findall TOKEN_RE text_low) in
  list_to_set chunks ∪ list_to_set entities ∪ list_to_set tokens.

Definition extract_skills (w : world) (t : text) (top_k : Z)
    (scorer : text -> text -> Q) : M (list text) :=
  do skills_master <- _load_skills_master w;
  let text_low := lower t in
  let exact : gset text :=
    filter (fun s => contains s text_low = true) skills_master in
  do nlp <- _get_nlp w;
  let d := nlp (take (N.to_nat 100000) t) in
  if noun_chunks_available (take (N.to_nat 100000) t) d then
    let candidates := candidate_phrases d text_low in
    let choices := set_order w skills_master in
    let found :=
      fold_left (fuzzy_step scorer choices) (set_order w candidates) exact in
    ret (py_sorted (find text_low) (set_order w found))
  else raise ValueError.

(** *** Education *)

Definition degrees : list text :=
  List.map str
    ["bachelor"; "b.sc"; "b.e"; "b.tech"; "master"; "m.sc"; "m.tech"; "m.e";
     "mca"; "phd"; "ph.d"]%string.

Definition extract_education (t : text) : list text :=
  let low := lower t in
  List.filter (fun d => contains d low) degrees.

(** ** The profile *)

Record profile : Type := Profile {
  raw_text : text;
  name : option text;
  phone : option text;
  email : option text;
  experience_years : option Z;
  skills : list text;
  education : list text
}.

Definition parse_resume (w : world) (path : text) : M profile :=
  fun st =>
    match extract_text w path with
    | Raise e => (Raise e, st)
    | Ok t =>
        (do nm <- extract_name w t;
         let contact := extract_contact_info t in
         let years := extract_experience_years t in
         do sk <- extract_skills w t 60 (token_sort_ratio w);
         ret (Profile t nm (contact_phone contact) (contact_email contact)
                years sk (extract_education t))) st
    end.

(** ** The upload endpoint ([api/v1/resume.py])

    The endpoint saves the uploaded bytes under the system's temporary
    directory, parses the saved file and removes it again.  The file system
    is threaded through as a function from paths to what they name. *)

Abbreviation filesystem := (text -> option node).

(** What the endpoint gives back: the profile, the error 400 it raises
    itself with its detail, or the error 500 it makes of an exception (the
    detail is then "Failed to parse resume: " followed by the message of
    the exception). *)
Inductive response : Type :=
| Returned (p : profile)
| HTTP400 (detail : text)
| HTTP500 (cause : exn).

(** The world with another file system. *)
Definition with_fs (w : world) (f : filesystem) : world :=
  World f (skills_file w) (pdfplumber_open w) (docx2txt_process w)
    (spacy_load w) (spacy_blank w) (token_sort_ratio w) (set_order w)
    (set_order_perm w).

(** [tmp_dir / filename] *)
Definition join_path (dir name : text) : text := dir ++ ch "/" :: name.

(** What the operating system does for the two calls of the endpoint that
    change files: the error it raises, if any, and the file system it
    leaves (links, permissions and limits make both depend on more than the
    path). *)
Record os_calls : Type := OsCalls {
  (** [save_path.open("wb")] and the copy of the upload into it *)
  open_write : filesystem -> text -> list byte -> option exn * filesystem;
  (** [os.remove(save_path)] *)
  os_remove : filesystem -> text -> option exn * filesystem
}.

(** The [finally] block: [os.remove] when the path exists; an error of
    [os.remove] is ignored. *)
Definition cleanup (os : os_calls) (f : filesystem) (p : text) : filesystem :=
  match f p with
  | Some _ => snd (os_remove os f p)
  | None => f
  end.

Definition allowed_upload_suffixes : list text :=
  List.map str [".pdf"; ".docx"; ".doc"; ".txt"]%string.

Definition upload_resume (os : os_calls) (w : world)
    (tmp_dir : text) (client_filename : text) (content : list byte)
    (st : state) : response * state * filesystem :=
  let filename := path_name client_filename in
  if text_eqb filename [] then (HTTP400 (str "Filename missing"), st, fs w)
  else
    let ext := lower (path_suffix filename) in
    if negb (existsb (text_eqb ext) allowed_upload_suffixes)
    then (HTTP400 (str "Unsupported file type"), st, fs w)
    else
      let save_path := join_path tmp_dir filename in
      match open_write os (fs w) save_path content with
      | (Some e, f1) => (HTTP500 e, st, cleanup os f1 save_path)
      | (None, f1) =>
          match parse_resume (with_fs w f1) save_path st with
          | (Ok p, st') => (Returned p, st', cleanup os f1 save_path)
          | (Raise e, st') => (HTTP500 e, st', cleanup os f1 save_path)
          end
      end.

(** ** The learning path ([learning_path_rules.py],
    [learning_path_service.py]) *)

Module LearningPath.

Definition SKILL_PRIORITY : list text :=
  List.map str
    ["git"; "linux"; "html"; "css"; "javascript"; "typescript"; "react";
     "redux"; "node.js"; "express"; "python"; "java"; "sql"; "mongodb";
     "postgresql"; "docker"; "kubernetes"; "aws"; "gcp"; "azure";
     "ci/cd"]%string.

Definition normalize_skill (s : text) : text := lower (strip s).

(** [enumerate(l)], counting from [i] *)
Fixpoint enumerate_from {A} (i : Z) (l : list A) : list (Z * A) :=
  match l with
  | [] => []
  | x :: l' => (i, x) :: enumerate_from (i + 1)%Z l'
  end.

(** [{skill: i for i, skill in enumerate(SKILL_PRIORITY)}]: a later pair
    replaces an earlier one with the same key. *)
Definition priority_index : gmap text Z :=
  fold_left (fun m p => <[snd p := fst p]> m)
    (enumerate_from 0%Z SKILL_PRIORITY) ∅.

Definition sort_key (skill : text) : Z :=
  match priority_index !! skill with
  | Some i => i
  | None => (Z.of_nat (size priority_index) + 100)%Z
  end.

Definition sort_missing_skills (missing_skills : list text) : list text :=
  let missing_norm := List.map normalize_skill missing_skills in
  py_sorted sort_key missing_norm.

(** One entry of the plan. *)
Record week_plan : Type := WeekPlan {
  week : Z;
  skills : list text;
  goal : text;
  suggested_resources : list text
}.

(** U+2013, the dash in "2-3" of the resource text *)
Definition EN_DASH : N := 8211.

Definition resource_for (skill : text) : text :=
  str "Watch 2" ++ EN_DASH :: str "3 beginner tutorials on '" ++ skill
  ++ str "', read official docs, and build 1 mini project using " ++ skill
  ++ str ".".

Definition make_week (week_num : Z) (chunk : list text) : week_plan :=
  WeekPlan week_num chunk
    (str "Get comfortable with: " ++ join (str ", ") chunk)
    (List.map resource_for chunk).

(** The loop [while i < len(ordered)]: [chunk = ordered[i:i + 2]], then
    [week_num += 1] and [i += 2]; the argument is [ordered[i:]]. *)
Fixpoint weeks_loop (week_num : Z) (ordered : list text) : list week_plan :=
  match ordered with
  | [] => []
  | [a] => [make_week week_num [a]]
  | a :: b :: rest =>
      make_week week_num [a; b] :: weeks_loop (week_num + 1)%Z rest
  end.

Definition build_rule_based_learning_path (missing_skills : list text)
    : list week_plan :=
  match missing_skills with
  | [] => []
  | _ :: _ => weeks_loop 1%Z (sort_missing_skills missing_skills)
  end.

(** [a <= b] on strings: the order of the code points at the first
    difference, a prefix before its extensions. *)
Fixpoint text_leb (a b : text) : bool :=
  match a, b with
  | [], _ => true
  | _ :: _, [] => false
  | x :: a', y :: b' => (x <? y) || ((x =? y) && text_leb a' b')
  end.

Fixpoint insert_text (x : text) (l : list text) : list text :=
  match l with
  | [] => [x]
  | y :: l' => if text_leb x y then x :: l else y :: insert_text x l'
  end.

(** [sorted(l)] on a list of strings *)
Fixpoint sorted_text (l : list text) : list text :=
  match l with
  | [] => []
  | x :: l' => insert_text x (sorted_text l')
  end.

(** The dictionary [generate_learning_path] returns. *)
Record learning_path : Type := LearningPathResult {
  candidate_skills : list text;
  target_skills : list text;
  missing_skills : list text;
  plan : list week_plan
}.

(** [enrich] stands for [enrich_learning_path_with_llm] of
    [learning_path_llm.py], which calls a language model; the order in
    which a set is listed is the world's. *)
Definition generate_learning_path (w : world)
    (enrich : list week_plan -> list text -> list text -> option text ->
              list week_plan)
    (candidate_skills target_skills : list text) (use_llm : bool)
    (job_title : option text) : learning_path :=
  let cand_set : gset text :=
    list_to_set (List.map normalize_skill candidate_skills) in
  let target_set : gset text :=
    list_to_set (List.map normalize_skill target_skills) in
  let missing := sorted_text (set_order w (target_set ∖ cand_set)) in
  let base_path := build_rule_based_learning_path missing in
  let final_path :=
    if use_llm && negb (Nat.eqb (length base_path) 0)
    then enrich base_path (sorted_text (set_order w cand_set))
           (sorted_text (set_order w target_set)) job_title
    else base_path in
  LearningPathResult (sorted_text (set_order w cand_set))
    (sorted_text (set_order w target_set)) missing final_path.

End LearningPath.

(** ** Notions used in the statements *)

(** A string is in lower case when [lower] leaves it as it is. *)
Definition is_lowercase (s : text) : Prop := lower s = s.

(** How many decimal digits a string has. *)
Definition digit_count (s : text) : nat := length (List.filter is_digit s).

(** The global [_skills_master] is still [None], or holds what an earlier
    call of the loader stored in it. *)
Definition cache_reachable (st : state) : Prop :=
  match _skills_master st with
  | None => True
  | Some v => exists w0, read_skills_master w0 = Ok v
  end.

(** The pattern has no capturing group. *)
Fixpoint group_free (r : regex) : bool :=
  match r with
  | Grp _ => false
  | Seq r1 r2 | Alt r1 r2 => group_free r1 && group_free r2
  | Opt r1 => group_free r1
  | Cls _ | Lit _ | Rep _ _ | Eol => true
  end.

(** [s] occurs in [t] at offset [n] and at no smaller offset. *)
Definition first_occurrence (s t : text) (n : nat) : Prop :=
  starts_with s (drop n t) = true
  /\ forall j, (j < n)%nat -> starts_with s (drop j t) = false.

(** The set [found] at the end of [extract_skills], for the vocabulary and
    the pipeline the two lazy globals gave. *)
Definition found_skills (w : world) (vocab : gset text) (nlp : pipeline)
    (t : text) (scorer : text -> text -> Q) : gset text :=
  fold_left (fuzzy_step scorer (set_order w vocab))
    (set_order w
       (candidate_phrases (nlp (take (N.to_nat 100000) t)) (lower t)))
    (filter (fun s => contains s (lower t) = true) vocab).

(** The code points a decoder leaves when malformed runs are dropped. *)
Fixpoint decoded_points (items : list utf8_item) : text :=
  match items with
  | [] => []
  | Decoded c :: rest => c :: decoded_points rest
  | Malformed _ :: rest => decoded_points rest
  end.

(** The suffixes that [extract_text] hands to a document reader. *)
Definition document_suffix (suffix : text) : bool :=
  text_eqb suffix (str ".pdf") || text_eqb suffix (str ".docx")
  || text_eqb suffix (str ".doc").

(** The years the fallback of [extract_experience_years] collects. *)
Definition found_years (t : text) : list Z :=
  omap py_int (findall YEAR_RE t).

(** [s] starts with four characters of the form 19xx or 20xx. *)
Definition year_at (s : text) : bool :=
  match s with
  | a :: b :: c :: d :: _ =>
      (((a =? ch "2") && (b =? ch "0")) || ((a =? ch "1") && (b =? ch "9")))
      && is_digit c && is_digit d
  | _ => false
  end.

(** Every four-character substring of the form 19xx or 20xx, overlapping
    ones included. *)
Fixpoint year_occurrences (s : text) : list text :=
  match s with
  | [] => []
  | _ :: s' =>
      (if year_at s then [take 4 s] else []) ++ year_occurrences s'
  end.

(** The year of every four-character substring of the form 19xx or 20xx. *)
Definition substring_years (s : text) : list Z :=
  omap py_int (year_occurrences s).

(** No two substrings of the form 19xx or 20xx overlap. *)
Definition no_year_overlap (s : text) : Prop :=
  forall j d, year_at (drop j s) = true -> (1 <= d <= 3)%nat ->
              year_at (drop (j + d) s) = false.

(** ** Sample worlds for the examples *)

(** The pipeline of [spacy.blank("en")] as far as the parser looks at it:
    no entity, and no dependency parse for the noun chunks. *)
Definition blank_pipeline : pipeline := fun _ => Doc [] [] false.

(** A loaded model that finds no entity and no noun chunk. *)
Definition quiet_pipeline : pipeline := fun _ => Doc [] [] true.

(** A scorer that gives 100 to equal strings and 0 to all others. *)
Definition exact_ratio (a b : text) : Q :=
  if text_eqb a b then 100%Q else 0%Q.

(** A world without document readers, with the quiet model installed and
    with the given files and skills file. *)
Definition sample_world (files : text -> option node)
    (sf : option (result json_doc)) : world :=
  World files sf (fun _ => None) (fun _ => None) (Some quiet_pipeline)
    blank_pipeline exact_ratio elements (fun X => Permutation_refl _).

Definition initial_state : state := State None None.

Definition bytes_of (s : string) : list byte :=
  List.map byte_of_ascii (list_ascii_of_string s).

(** A directory [resumes], a text file [notes.txt] holding the bytes
    61 FF 62, and a file [cv.PDF]. *)
Definition sample_files (p : text) : option node :=
  if text_eqb p (str "resumes") then Some Directory
  else if text_eqb p (str "notes.txt")
       then Some (RegularFile [x61; xff; x62])
       else if text_eqb p (str "cv.PDF")
            then Some (RegularFile (bytes_of "%PDF-1.4"))
            else None.

Definition world0 : world := sample_world sample_files None.

(** A world whose skills file is the JSON list ["   ", " SQL "]. *)
Definition world_blank_skill : world :=
  sample_world sample_files
    (Some (Ok (JList [JString (str "   "); JString (str " SQL ")]))).

Definition sample_text : text := str "Skills: SQL, Python; B.Tech 2019".

(** A text with a misspelt skill, and a scorer that gives 90 to the
    misspelling against the vocabulary term and 0 to all other pairs. *)
Definition typo_text : text := str "pythn and sql".

Definition typo_ratio (a b : text) : Q :=
  if text_eqb a (str "pythn") && text_eqb b (str "python")
  then 90%Q else 0%Q.

(** The skill is one of [SKILL_PRIORITY]. *)
Definition in_priority (s : text) : bool :=
  existsb (text_eqb s) LearningPath.SKILL_PRIORITY.

(** [a] stands in [SKILL_PRIORITY] at or before [b]. *)
Definition priority_order (a b : text) : Prop :=
  exists i j : nat,
    LearningPath.SKILL_PRIORITY !! i = Some a
    /\ LearningPath.SKILL_PRIORITY !! j = Some b
    /\ (i <= j)%nat.

(** [a <= b] on strings, as a relation. *)
Definition text_le (a b : text) : Prop := LearningPath.text_leb a b = true.

(** The pairs of [priority_index]. *)
Definition priority_pairs : list (text * Z) :=
  List.map (fun p => (snd p, fst p))
    (LearningPath.enumerate_from 0%Z LearningPath.SKILL_PRIORITY).

(** A world whose PDF reader gives, for every path, a page with text, a
    page without, a page that raises, and a last page with text. *)
Definition world_pdf : world :=
  World sample_files None
    (fun _ => Some [PageText (Some (str "page one")); PageText None;
                    PageRaises; PageText (Some (str "page four"))])
    (fun _ => None) (Some quiet_pipeline) blank_pipeline exact_ratio
    elements (fun X => Permutation_refl _).

(** The character does not occur in the string. *)
Definition lacks (c : N) (s : text) : Prop := Forall (fun x => x <> c) s.

(** The value of [extract_name] for the pipeline that [_get_nlp] gave. *)
Definition name_of (nlp : pipeline) (t : text) : option text :=
  match first_person (ents (nlp (take 2000 t))) with
  | Some n => Some n
  | None =>
      match List.map strip
              (List.filter (fun l => nonempty (strip l)) (splitlines t)) with
      | candidate :: _ =>
          if (length (split_ws [] candidate) <=? 4)%nat
             && bool_decide (is_Some (re_match NAME_RE candidate))
          then Some candidate
          else None
      | [] => None
      end
  end.

(** The profile for a text, a pipeline and a vocabulary. *)
Definition profile_of (w : world) (nlp : pipeline) (vocab : gset text)
    (t : text) : profile :=
  Profile t (name_of nlp t)
    (contact_phone (extract_contact_info t))
    (contact_email (extract_contact_info t))
    (extract_experience_years t)
    (py_sorted (find (lower t))
       (set_order w (found_skills w vocab nlp t (token_sort_ratio w))))
    (extract_education t).





(** A world in which every path names an empty file. *)
Definition world_empty_files : world :=
  sample_world (fun _ => Some (RegularFile [])) None.

(** The two calls leave every path other than their own as it was. *)
Definition local_os (os : os_calls) : Prop :=
  forall (f : filesystem) (p q : text),
    q <> p ->
    (forall content, snd (open_write os f p content) q = f q)
    /\ snd (os_remove os f p) q = f q.

(** [os.remove] leaves nothing at a path that is not a directory. *)
Definition removes_files (os : os_calls) : Prop :=
  forall (f : filesystem) (p : text),
    f p <> Some Directory -> snd (os_remove os f p) p = None.

(** A write that raises nothing leaves at the path a file with the bytes
    written. *)
Definition writes_content (os : os_calls) : Prop :=
  forall (f f1 : filesystem) (p : text) (content : list byte),
    open_write os f p content = (None, f1) ->
    f1 p = Some (RegularFile content).

(** An operating system without links, permissions and limits: writing
    fails on a directory only and creates or replaces the file at the path;
    removing deletes a file and fails on a directory and on a missing
    path; neither touches another path. *)
Definition plain_write (f : filesystem) (p : text) (content : list byte)
    : option exn * filesystem :=
  match f p with
  | Some Directory => (Some (IsADirectoryError p), f)
  | _ => (None,
          fun q => if text_eqb q p then Some (RegularFile content) else f q)
  end.

Definition plain_remove (f : filesystem) (p : text)
    : option exn * filesystem :=
  match f p with
  | Some Directory => (Some (IsADirectoryError p), f)
  | Some _ => (None, fun q => if text_eqb q p then None else f q)
  | None => (Some (FileNotFoundError p), f)
  end.

Definition plain_os : os_calls := OsCalls plain_write plain_remove.

(** The checks of [upload_resume] on the file name: the name of the path
    is not empty and its suffix, lower-cased, is one of the four allowed. *)
Definition upload_accepted (client_filename : text) : bool :=
  negb (text_eqb (path_name client_filename) [])
  && existsb (text_eqb (lower (path_suffix (path_name client_filename))))
       allowed_upload_suffixes.

(** A world with a directory [/tmp/cv.txt] and a file [/tmp/notes.txt]. *)
Definition upload_files (p : text) : option node :=
  if text_eqb p (str "/tmp/cv.txt") then Some Directory
  else if text_eqb p (str "/tmp/notes.txt")
       then Some (RegularFile (bytes_of "old notes"))
       else None.

Definition world_upload : world := sample_world upload_files None.

(** * Properties *)

(** ** Text *)

Lemma is_upper_lower_char (c : N) : is_upper (lower_char c) = false.
Proof.
  unfold lower_char.
  destruct (is_upper c) eqn:E; [|exact E].
  unfold is_upper, is_ascii_upper, in_range in *.
  repeat match goal with
         | |- context [?a <=? ?b] => destruct (N.leb_spec a b)
         | |- context [?a =? ?b] => destruct (N.eqb_spec a b)
         | H : context [?a <=? ?b] |- _ => destruct (N.leb_spec a b)
         | H : context [?a =? ?b] |- _ => destruct (N.eqb_spec a b)
         end; simpl in *; try reflexivity; try discriminate; lia.
Qed.

Lemma lower_char_idem (c : N) : lower_char (lower_char c) = lower_char c.
Proof.
  unfold lower_char at 1. now rewrite is_upper_lower_char.
Qed.

Lemma lower_idem (s : text) : lower (lower s) = lower s.
Proof.
  unfold lower. rewrite List.map_map.
  apply List.map_ext. intros c. apply lower_char_idem.
Qed.

Lemma is_lowercase_lower (s : text) : is_lowercase (lower s).
Proof. apply lower_idem. Qed.

Lemma is_lowercase_no_upper (s : text) :
  is_lowercase s -> Forall (fun c => is_upper c = false) s.
Proof.
  unfold is_lowercase, lower. induction s as [|c s IH]; intros H.
  - constructor.
  - simpl in H. injection H as Hc Hs. constructor.
    + rewrite <- Hc. apply is_upper_lower_char.
    + apply IH, Hs.
Qed.

(** ** Sorting *)

Section PySortedFacts.
Context {A : Type} (key : A -> Z).

Lemma insert_by_key_perm (x : A) (l : list A) :
  Permutation (insert_by_key key x l) (x :: l).
Proof.
  induction l as [|y l IH]; simpl.
  - reflexivity.
  - destruct (key x <=? key y)%Z.
    + reflexivity.
    + rewrite IH. apply perm_swap.
Qed.

Lemma py_sorted_perm (l : list A) : Permutation (py_sorted key l) l.
Proof.
  induction l as [|x l IH]; simpl.
  - reflexivity.
  - rewrite insert_by_key_perm. now constructor.
Qed.

Lemma insert_by_key_sorted (x : A) (l : list A) :
  StronglySorted (key_le key) l -> StronglySorted (key_le key) (insert_by_key key x l).
Proof.
  induction 1 as [|y l Hs IH Hy]; simpl.
  - repeat constructor.
  - destruct (Z.leb_spec (key x) (key y)) as [Hle|Hgt].
    + constructor; [now constructor|].
      constructor; [exact Hle|].
      eapply List.Forall_impl; [|exact Hy].
      intros z Hz. unfold key_le in *. lia.
    + constructor; [exact IH|].
      rewrite (List.Forall_forall (key_le key y)). intros z Hz.
      apply (Permutation_in _ (insert_by_key_perm x l)) in Hz.
      destruct Hz as [<-|Hz].
      * unfold key_le. lia.
      * rewrite (List.Forall_forall (key_le key y)) in Hy. now apply Hy.
Qed.

Lemma py_sorted_sorted (l : list A) : StronglySorted (key_le key) (py_sorted key l).
Proof.
  induction l as [|x l IH]; simpl.
  - constructor.
  - now apply insert_by_key_sorted.
Qed.

Lemma py_sorted_In (l : list A) (x : A) : In x (py_sorted key l) <-> In x l.
Proof.
  split; apply Permutation_in; [|symmetry]; apply py_sorted_perm.
Qed.

End PySortedFacts.

(** ** Iterating over a set *)

Lemma set_order_In (w : world) (X : gset text) (s : text) :
  In s (set_order w X) <-> s ∈ X.
Proof.
  rewrite <- elem_of_elements, <- list_elem_of_In.
  now rewrite (set_order_perm w X).
Qed.

Lemma set_order_NoDup (w : world) (X : gset text) : List.NoDup (set_order w X).
Proof.
  apply NoDup_ListNoDup.
  rewrite (set_order_perm w X). apply NoDup_elements.
Qed.

(** ** The vocabulary *)

Lemma normalized_set_lowercase (l : list json_entry) (v : gset text) :
  normalized_set l = Ok v -> forall s, s ∈ v -> is_lowercase s.
Proof.
  revert v. induction l as [|e l IH]; simpl; intros v H s Hs.
  - injection H as <-. now apply not_elem_of_empty in Hs.
  - destruct (truthy e).
    + destruct e as [x|b]; [|discriminate].
      destruct (normalized_set l) as [v'|] eqn:E; [|discriminate].
      injection H as <-.
      apply elem_of_union in Hs as [Hs|Hs].
      * apply elem_of_singleton in Hs as ->. apply is_lowercase_lower.
      * now apply (IH v').
    + now apply (IH v).
Qed.

Lemma fallback_skills_lowercase :
  forall s, In s fallback_skills -> is_lowercase s.
Proof.
  apply List.Forall_forall. unfold is_lowercase.
  repeat constructor.
Qed.

Lemma read_skills_master_lowercase (w : world) (v : gset text) :
  read_skills_master w = Ok v -> forall s, s ∈ v -> is_lowercase s.
Proof.
  unfold read_skills_master. intros H s Hs.
  destruct (skills_file w) as [[data|e]|].
  - destruct (skills_of data) as [l|e] eqn:E; [|discriminate].
    now apply (normalized_set_lowercase l v).
  - discriminate.
  - assert (Hv : v = list_to_set fallback_skills) by congruence.
    rewrite Hv in Hs. apply elem_of_list_to_set, list_elem_of_In in Hs.
    now apply fallback_skills_lowercase.
Qed.

Lemma load_skills_master_lowercase (w : world) (st st' : state)
    (v : gset text) :
  cache_reachable st ->
  _load_skills_master w st = (Ok v, st') ->
  forall s, s ∈ v -> is_lowercase s.
Proof.
  unfold cache_reachable, _load_skills_master. intros Hc H.
  destruct (_skills_master st) as [v0|].
  - injection H as <- _. destruct Hc as [w0 Hw0].
    now apply (read_skills_master_lowercase w0).
  - destruct (read_skills_master w) as [v1|e] eqn:E; [|discriminate].
    injection H as <- _. now apply (read_skills_master_lowercase w).
Qed.

(** ** Skill matching *)

Lemma extractOne_from_In (scorer : text -> text -> Q) (q : text)
    (choices : list text) (i : nat) (best r : option (text * Q * nat)) :
  extractOne_from scorer q choices i best = r ->
  r = best \/ exists m sc j, r = Some (m, sc, j) /\ In m choices.
Proof.
  revert i best. induction choices as [|c rest IH]; simpl; intros i best H.
  - now left.
  - apply IH in H as [H|(m & sc & j & -> & Hin)].
    + destruct best as [[[b bs] bi]|].
      * destruct (Qle_bool (scorer q c) bs); [now left|].
        right. exists c, (scorer q c), i. split; [exact H|now left].
      * right. exists c, (scorer q c), i. split; [exact H|now left].
    + right. exists m, sc, j. split; [reflexivity|now right].
Qed.

Lemma extractOne_In (scorer : text -> text -> Q) (q : text)
    (choices : list text) (m : text) (sc : Q) (j : nat) :
  extractOne scorer q choices = Some (m, sc, j) -> In m choices.
Proof.
  unfold extractOne. intros H.
  apply extractOne_from_In in H as [H|(m' & sc' & j' & H & Hin)].
  - discriminate.
  - now injection H as -> _ _.
Qed.

Lemma fuzzy_step_bounds (scorer : text -> text -> Q) (choices : list text)
    (found : gset text) (cand s : text) :
  (s ∈ found -> s ∈ fuzzy_step scorer choices found cand)
  /\ (s ∈ fuzzy_step scorer choices found cand -> s ∈ found \/ In s choices).
Proof.
  unfold fuzzy_step.
  destruct (extractOne scorer cand choices) as [[[m sc] j]|] eqn:E;
    [|tauto].
  destruct (Qle_bool 80 sc); [|tauto].
  apply extractOne_In in E. rewrite elem_of_union, elem_of_singleton.
  split; [tauto|]. intros [->|H]; tauto.
Qed.

Lemma fold_fuzzy_bounds (scorer : text -> text -> Q) (choices cands : list text)
    (found : gset text) (s : text) :
  (s ∈ found -> s ∈ fold_left (fuzzy_step scorer choices) cands found)
  /\ (s ∈ fold_left (fuzzy_step scorer choices) cands found ->
      s ∈ found \/ In s choices).
Proof.
  revert found. induction cands as [|c cands IH]; simpl; intros found.
  - tauto.
  - destruct (IH (fuzzy_step scorer choices found c)) as [IH1 IH2].
    destruct (fuzzy_step_bounds scorer choices found c s) as [F1 F2].
    split; [tauto|]. intros H. apply IH2 in H. tauto.
Qed.

Lemma found_skills_exact (w : world) (vocab : gset text) (nlp : pipeline)
    (t : text) (scorer : text -> text -> Q) (s : text) :
  s ∈ vocab -> contains s (lower t) = true ->
  s ∈ found_skills w vocab nlp t scorer.
Proof.
  intros Hv Hc. unfold found_skills.
  apply fold_fuzzy_bounds. now apply elem_of_filter.
Qed.

Lemma found_skills_vocab (w : world) (vocab : gset text) (nlp : pipeline)
    (t : text) (scorer : text -> text -> Q) (s : text) :
  s ∈ found_skills w vocab nlp t scorer -> s ∈ vocab.
Proof.
  unfold found_skills. intros H.
  apply fold_fuzzy_bounds in H as [H|H].
  - now apply elem_of_filter in H.
  - now apply set_order_In in H.
Qed.

Lemma get_nlp_ok (w : world) (st : state) :
  exists nlp st', _get_nlp w st = (Ok nlp, st')
                  /\ _skills_master st' = _skills_master st.
Proof.
  unfold _get_nlp. destruct (_nlp st); eauto.
Qed.

Lemma extract_skills_inv (w : world) (t : text) (top_k : Z)
    (scorer : text -> text -> Q) (st st' : state) (out : list text) :
  extract_skills w t top_k scorer st = (Ok out, st') ->
  exists vocab st1 nlp,
    _load_skills_master w st = (Ok vocab, st1)
    /\ _get_nlp w st1 = (Ok nlp, st')
    /\ out = py_sorted (find (lower t))
               (set_order w (found_skills w vocab nlp t scorer)).
Proof.
  unfold extract_skills, bind, ret. intros H.
  destruct (_load_skills_master w st) as [[vocab|e] st1]; [|discriminate].
  destruct (get_nlp_ok w st1) as (nlp & st2 & Hn & _).
  rewrite Hn in H.
  destruct (noun_chunks_available _ _); [|discriminate].
  injection H as <- <-.
  exists vocab, st1, nlp. repeat split. exact Hn.
Qed.

Lemma extract_skills_In (w : world) (vocab : gset text) (nlp : pipeline)
    (t : text) (scorer : text -> text -> Q) (s : text) :
  In s (py_sorted (find (lower t))
          (set_order w (found_skills w vocab nlp t scorer)))
  <-> s ∈ found_skills w vocab nlp t scorer.
Proof.
  now rewrite py_sorted_In, set_order_In.
Qed.

Lemma NoDup_map_lower (l : list text) :
  List.NoDup l -> (forall s, In s l -> is_lowercase s) ->
  List.NoDup (List.map lower l).
Proof.
  intros Hnd Hl. rewrite (List.map_ext_in lower (fun s => s)).
  - now rewrite List.map_id.
  - exact Hl.
Qed.

(** ** Offsets *)

Lemma find_from_spec (s t : text) (i : Z) :
  (contains s t = false /\ find_from s t i = (-1)%Z)
  \/ (contains s t = true
      /\ exists n, find_from s t i = (i + Z.of_nat n)%Z
                   /\ first_occurrence s t n).
Proof.
  revert i. induction t as [|c t IH]; intros i; simpl.
  - destruct (starts_with s []) eqn:E; simpl.
    + right. split; [reflexivity|]. exists 0%nat.
      split; [lia|]. split; [exact E|]. intros j Hj. lia.
    + now left.
  - destruct (starts_with s (c :: t)) eqn:E; simpl.
    + right. split; [reflexivity|]. exists 0%nat.
      split; [lia|]. split; [exact E|]. intros j Hj. lia.
    + destruct (IH (i + 1)%Z) as [[Hc Hf]|[Hc (n & Hf & Hs & Hmin)]].
      * left. now split.
      * right. split; [exact Hc|]. exists (S n).
        split; [lia|]. split; [exact Hs|].
        intros [|j] Hj; [exact E|]. apply Hmin. lia.
Qed.

Lemma find_spec (t s : text) :
  (contains s t = false /\ find t s = (-1)%Z)
  \/ (contains s t = true
      /\ exists n, find t s = Z.of_nat n /\ first_occurrence s t n).
Proof.
  unfold find. destruct (find_from_spec s t 0) as [H|[Hc (n & Hf & Ho)]].
  - now left.
  - right. split; [exact Hc|]. exists n. split; [lia|exact Ho].
Qed.

(** ** Claims on [extract_skills] and [extract_education] *)

(** C2: the list returned by [extract_skills] is sorted by the key
    [text_low.find(s)] of each skill string [s]: the first offset at which
    [s] occurs in the lower-cased text.  The key is taken on the vocabulary
    string itself, so a skill that only the fuzzy pass accepted, which does
    not occur in the text, has the key -1 that [find] gives. *)
Theorem extract_skills_sorted_by_offset (w : world) (t : text) (top_k : Z)
    (scorer : text -> text -> Q) (st st' : state) (out : list text) :
  extract_skills w t top_k scorer st = (Ok out, st') ->
  StronglySorted
    (fun a b => (find (lower t) a <= find (lower t) b)%Z) out
  /\ forall s, In s out ->
       (contains s (lower t) = true
        /\ exists n, find (lower t) s = Z.of_nat n
                     /\ first_occurrence s (lower t) n)
       \/ (contains s (lower t) = false /\ find (lower t) s = (-1)%Z).
Proof.
  intros H.
  apply extract_skills_inv in H as (vocab & st1 & nlp & _ & _ & ->).
  split.
  - apply (py_sorted_sorted (find (lower t))).
  - intros s _. destruct (find_spec (lower t) s); tauto.
Qed.

(** C6: a vocabulary term that is a substring of the lower-cased text is an
    element of the list returned by [extract_skills]. *)
Theorem extract_skills_exact_complete (w : world) (t : text) (top_k : Z)
    (scorer : text -> text -> Q) (st st1 st' : state) (vocab : gset text)
    (out : list text) (term : text) :
  _load_skills_master w st = (Ok vocab, st1) ->
  extract_skills w t top_k scorer st = (Ok out, st') ->
  term ∈ vocab ->
  contains term (lower t) = true ->
  In term out.
Proof.
  intros Hload H Hv Hc.
  apply extract_skills_inv in H as (vocab' & st1' & nlp & Hl & _ & ->).
  rewrite Hload in Hl. injection Hl as <- <-.
  apply extract_skills_In. now apply found_skills_exact.
Qed.

(** C7: every element of the list returned by [extract_skills] is a member
    of the vocabulary the loader returned, and the list has no duplicates,
    also when the entries are compared after lower-casing. *)
Theorem extract_skills_in_vocabulary_nodup (w : world) (t : text) (top_k : Z)
    (scorer : text -> text -> Q) (st st' : state) (out : list text) :
  cache_reachable st ->
  extract_skills w t top_k scorer st = (Ok out, st') ->
  (exists vocab st1,
      _load_skills_master w st = (Ok vocab, st1)
      /\ forall s, In s out -> s ∈ vocab)
  /\ List.NoDup out
  /\ List.NoDup (List.map lower out).
Proof.
  intros Hc H.
  apply extract_skills_inv in H as (vocab & st1 & nlp & Hl & _ & ->).
  assert (Hin : forall s,
             In s (py_sorted (find (lower t))
                     (set_order w (found_skills w vocab nlp t scorer))) ->
             s ∈ vocab).
  { intros s Hs. apply extract_skills_In in Hs.
    now apply found_skills_vocab in Hs. }
  assert (Hnd : List.NoDup
                  (py_sorted (find (lower t))
                     (set_order w (found_skills w vocab nlp t scorer)))).
  { eapply Permutation_NoDup; [symmetry; apply py_sorted_perm|].
    apply set_order_NoDup. }
  split; [|split].
  - exists vocab, st1. now split.
  - exact Hnd.
  - apply NoDup_map_lower; [exact Hnd|].
    intros s Hs. apply (load_skills_master_lowercase w st st1 vocab Hc Hl).
    now apply Hin.
Qed.

Lemma degrees_lowercase : forall d, In d degrees -> is_lowercase d.
Proof.
  apply List.Forall_forall. unfold is_lowercase.
  repeat constructor.
Qed.

(** C10: every string in the list returned by [extract_skills] and every
    string in the list returned by [extract_education] is in lower case: it
    is left unchanged by [lower] and has no upper-case letter; the education
    entries come from the fixed list of degrees. *)
Theorem skills_and_education_lowercase (w : world) (t : text) (top_k : Z)
    (scorer : text -> text -> Q) (st st' : state) (out : list text) :
  cache_reachable st ->
  extract_skills w t top_k scorer st = (Ok out, st') ->
  (forall s, In s out ->
     is_lowercase s /\ Forall (fun c => is_upper c = false) s)
  /\ (forall d, In d (extract_education t) ->
        In d degrees
        /\ is_lowercase d /\ Forall (fun c => is_upper c = false) d).
Proof.
  intros Hc H.
  apply extract_skills_inv in H as (vocab & st1 & nlp & Hl & _ & ->).
  split.
  - intros s Hs. apply extract_skills_In, found_skills_vocab in Hs.
    pose proof (load_skills_master_lowercase w st st1 vocab Hc Hl s Hs) as Hlow.
    split; [exact Hlow|now apply is_lowercase_no_upper].
  - intros d Hd. unfold extract_education in Hd.
    apply List.filter_In in Hd as [Hd _].
    pose proof (degrees_lowercase d Hd) as Hlow.
    split; [exact Hd|]. split; [exact Hlow|now apply is_lowercase_no_upper].
Qed.

(** ** The vocabulary loader *)

(** C1: on a skills file that lists a name made of spaces only, the loader
    returns a vocabulary that has the empty string as a member: the test
    [if s] is made before the name is trimmed, so the entry is kept and
    trimmed to nothing. *)
Theorem load_skills_master_keeps_blank_entry :
  fst (_load_skills_master world_blank_skill initial_state)
    = Ok ({[ [] ; str "sql" ]} : gset text)
  /\ [] ∈ ({[ [] ; str "sql" ]} : gset text)
  /\ strip (str "   ") = [].
Proof.
  split; [vm_compute; reflexivity|].
  split; [set_solver|reflexivity].
Qed.

(** ** Reading the file *)

Lemma handle_items_ignore (items : list utf8_item) :
  handle_items Ignore items = Some (decoded_points items).
Proof.
  induction items as [|[c|n] items IH]; simpl.
  - reflexivity.
  - now rewrite IH.
  - exact IH.
Qed.

Lemma document_suffix_false (suffix : text) :
  document_suffix suffix = false ->
  text_eqb suffix (str ".pdf") = false
  /\ (text_eqb suffix (str ".docx") || text_eqb suffix (str ".doc")) = false.
Proof.
  unfold document_suffix.
  destruct (text_eqb suffix (str ".pdf")),
    (text_eqb suffix (str ".docx")), (text_eqb suffix (str ".doc"));
    simpl; intros H; try discriminate; now split.
Qed.

(** C4, counterexample: [notes.txt] holds the bytes 61 FF 62, of which FF
    cannot be decoded; [extract_text] returns "ab", not the text with
    U+FFFD in the place of the byte. *)
Lemma extract_text_does_not_replace :
  fs world0 (str "notes.txt") = Some (RegularFile [x61; xff; x62])
  /\ document_suffix (lower (path_suffix (str "notes.txt"))) = false
  /\ utf8_decode Strict [x61; xff; x62] = None
  /\ extract_text world0 (str "notes.txt") = Ok (str "ab")
  /\ read_text Replace (str "notes.txt") (RegularFile [x61; xff; x62])
     = Ok [ch "a"; REPLACEMENT; ch "b"]
  /\ extract_text world0 (str "notes.txt")
     <> read_text Replace (str "notes.txt") (RegularFile [x61; xff; x62]).
Proof.
  repeat split; try (vm_compute; reflexivity).
  vm_compute. discriminate.
Qed.

(** C4, amended: for a path that names a regular file and whose suffix,
    lower-cased, is none of .pdf, .docx and .doc, [extract_text] returns the
    file decoded as UTF-8 with the malformed bytes dropped (and the line
    ends translated); decoding never fails. *)
Theorem extract_text_plain_drops_malformed (w : world) (path : text)
    (bs : list byte) :
  fs w path = Some (RegularFile bs) ->
  document_suffix (lower (path_suffix path)) = false ->
  extract_text w path
    = Ok (universal_newlines (decoded_points (utf8_scan bs)))
  /\ utf8_decode Ignore bs = Some (decoded_points (utf8_scan bs)).
Proof.
  intros Hfs Hsuf. unfold extract_text. rewrite Hfs.
  apply document_suffix_false in Hsuf as [-> ->].
  unfold read_text, utf8_decode. rewrite handle_items_ignore.
  now split.
Qed.

Lemma extract_text_plain_drops_malformed_witness :
  extract_text world0 (str "notes.txt")
    = Ok (universal_newlines (decoded_points (utf8_scan [x61; xff; x62])))
  /\ utf8_decode Ignore [x61; xff; x62]
     = Some (decoded_points (utf8_scan [x61; xff; x62])).
Proof.
  apply (extract_text_plain_drops_malformed world0 (str "notes.txt")
           [x61; xff; x62]); vm_compute; reflexivity.
Defined.

(** ** Errors of [parse_resume] *)

Lemma get_nlp_spec (w : world) (st st1 : state) (nlp : pipeline) :
  _get_nlp w st = (Ok nlp, st1) ->
  _nlp st1 = Some nlp /\ _skills_master st1 = _skills_master st
  /\ forall w', _get_nlp w' st1 = (Ok nlp, st1).
Proof.
  unfold _get_nlp. destruct (_nlp st) as [n|] eqn:E; intros H;
    injection H as <- <-.
  - repeat split; [exact E|]. intros w'. now rewrite E.
  - now repeat split.
Qed.

Lemma load_skills_master_spec (w : world) (st st1 : state) (v : gset text) :
  _load_skills_master w st = (Ok v, st1) ->
  _skills_master st1 = Some v /\ _nlp st1 = _nlp st
  /\ forall w', _load_skills_master w' st1 = (Ok v, st1).
Proof.
  unfold _load_skills_master. destruct (_skills_master st) as [v0|] eqn:E.
  - intros H. injection H as <- <-. repeat split; [exact E|].
    intros w'. now rewrite E.
  - destruct (read_skills_master w) as [v1|e]; intros H; [|discriminate].
    injection H as <- <-. now repeat split.
Qed.

Lemma get_nlp_cached (w : world) (st : state) (nlp : pipeline) :
  _nlp st = Some nlp -> _get_nlp w st = (Ok nlp, st).
Proof. unfold _get_nlp. now intros ->. Qed.

Lemma load_skills_master_cached (w : world) (st : state) (v : gset text) :
  _skills_master st = Some v -> _load_skills_master w st = (Ok v, st).
Proof. unfold _load_skills_master. now intros ->. Qed.

Lemma extract_name_eq (w : world) (t : text) (st st1 : state)
    (nlp : pipeline) :
  _get_nlp w st = (Ok nlp, st1) ->
  extract_name w t st = (Ok (name_of nlp t), st1).
Proof.
  intros H. unfold extract_name, bind, ret, name_of. rewrite H.
  destruct (first_person (ents (nlp (take 2000 t)))); [reflexivity|].
  destruct (List.map strip
              (List.filter (fun l => nonempty (strip l)) (splitlines t)));
    [reflexivity|].
  match goal with |- context [if ?b then _ else _] => destruct b end;
    reflexivity.
Qed.

Lemma extract_name_ok (w : world) (t : text) (st : state) :
  exists r st', extract_name w t st = (Ok r, st')
                /\ _skills_master st' = _skills_master st.
Proof.
  unfold extract_name, bind, ret.
  destruct (get_nlp_ok w st) as (nlp & st1 & -> & Hs).
  destruct (first_person (ents (nlp (take 2000 t)))); [eauto|].
  destruct (List.map strip
              (List.filter (fun l => nonempty (strip l)) (splitlines t)));
    [eauto|].
  match goal with |- context [if ?b then _ else _] => destruct b end; eauto.
Qed.

Lemma load_skills_master_raise (w : world) (st st' : state) (e : exn) :
  _load_skills_master w st = (Raise e, st') ->
  _skills_master st = None /\ read_skills_master w = Raise e /\ st' = st.
Proof.
  unfold _load_skills_master.
  destruct (_skills_master st); [discriminate|].
  destruct (read_skills_master w); [discriminate|].
  intros H. injection H as -> ->. now repeat split.
Qed.

Lemma extract_skills_raise (w : world) (t : text) (top_k : Z)
    (scorer : text -> text -> Q) (st st' : state) (e : exn) :
  extract_skills w t top_k scorer st = (Raise e, st') ->
  (_skills_master st = None /\ read_skills_master w = Raise e)
  \/ (e = ValueError
      /\ exists vocab st1 nlp,
           _load_skills_master w st = (Ok vocab, st1)
           /\ _get_nlp w st1 = (Ok nlp, st')
           /\ noun_chunks_available (take (N.to_nat 100000) t)
                (nlp (take (N.to_nat 100000) t)) = false).
Proof.
  unfold extract_skills, bind, ret, raise.
  destruct (_load_skills_master w st) as [[vocab|e'] st1] eqn:E.
  - destruct (get_nlp_ok w st1) as (nlp & st2 & Hn & _). rewrite Hn.
    destruct (noun_chunks_available _ _) eqn:Ha; [discriminate|].
    intros H. injection H as <- <-. right. split; [reflexivity|].
    now exists vocab, st1, nlp.
  - intros H. injection H as -> _.
    apply load_skills_master_raise in E. left. tauto.
Qed.


Lemma extract_skills_no_parse (w : world) (t : text) (top_k : Z)
    (scorer : text -> text -> Q) (st st1 st2 : state) (v : gset text)
    (nlp : pipeline) :
  _load_skills_master w st = (Ok v, st1) ->
  _get_nlp w st1 = (Ok nlp, st2) ->
  noun_chunks_available (take (N.to_nat 100000) t)
    (nlp (take (N.to_nat 100000) t)) = false ->
  extract_skills w t top_k scorer st = (Raise ValueError, st2).
Proof.
  intros Hl Hn Ha. unfold extract_skills, bind, raise.
  now rewrite Hl, Hn, Ha.
Qed.

Lemma extract_text_raise (w : world) (path : text) (e : exn) :
  extract_text w path = Raise e ->
  (e = FileNotFoundError path /\ fs w path = None)
  \/ (document_suffix (lower (path_suffix path)) = false
      /\ ((e = IsADirectoryError path /\ fs w path = Some Directory)
          \/ fs w path = Some (Unreadable e))).
Proof.
  unfold extract_text, document_suffix.
  destruct (fs w path) as [n|].
  - destruct (text_eqb (lower (path_suffix path)) (str ".pdf"));
      [discriminate|].
    destruct (text_eqb (lower (path_suffix path)) (str ".docx"));
      [discriminate|].
    destruct (text_eqb (lower (path_suffix path)) (str ".doc"));
      [discriminate|].
    destruct n as [|bs|e0]; simpl.
    + intros H. injection H as <-. right. split; [reflexivity|]. now left.
    + unfold utf8_decode. rewrite handle_items_ignore. discriminate.
    + intros H. injection H as <-. right. split; [reflexivity|]. now right.
  - intros H. injection H as <-. now left.
Qed.


Lemma parse_resume_no_parse (w : world) (path t : text) (st sa sb : state)
    (nlp : pipeline) (v : gset text) :
  extract_text w path = Ok t ->
  _get_nlp w st = (Ok nlp, sa) ->
  _load_skills_master w sa = (Ok v, sb) ->
  noun_chunks_available (take (N.to_nat 100000) t)
    (nlp (take (N.to_nat 100000) t)) = false ->
  parse_resume w path st = (Raise ValueError, sb).
Proof.
  intros Ht Hn Hl Ha. unfold parse_resume, bind. rewrite Ht.
  rewrite (extract_name_eq w t st sa nlp Hn).
  destruct (get_nlp_spec w st sa nlp Hn) as (Hnlp & _ & _).
  destruct (load_skills_master_spec w sa sb v Hl) as (_ & Hkeep & _).
  rewrite (extract_skills_no_parse w t 60 _ sa sb sb v nlp Hl);
    [reflexivity| |exact Ha].
  apply get_nlp_cached. congruence.
Qed.




(** ** The matcher returns strings of the pattern's language *)

Lemma starts_with_app (l s : text) :
  starts_with l s = true -> s = l ++ drop (length l) s.
Proof.
  revert s. induction l as [|a l IH]; intros [|b s]; simpl; try discriminate.
  - reflexivity.
  - reflexivity.
  - intros H. apply andb_true_iff in H as [Hab Hl].
    apply N.eqb_eq in Hab as ->. f_equal. now apply IH.
Qed.

Lemma take_matched (m rest : text) :
  take (length (m ++ rest) - length rest) (m ++ rest) = m.
Proof.
  rewrite length_app.
  replace (length m + length rest - length rest)%nat with (length m) by lia.
  apply take_app_length.
Qed.

Lemma rep_greedy_sound {A} (p : N -> bool) (s : text) :
  forall (lo : nat) (k : text -> option A) (a : A),
    rep_greedy p lo s k = Some a ->
    exists m rest,
      s = m ++ rest /\ (lo <= length m)%nat
      /\ Forall (fun c => p c = true) m /\ k rest = Some a.
Proof.
  assert (Hstop : forall (t : text) (lo : nat) (k : text -> option A) a,
             match lo with O => k t | S _ => None end = Some a ->
             exists m rest,
               t = m ++ rest /\ (lo <= length m)%nat
               /\ Forall (fun c => p c = true) m /\ k rest = Some a).
  { intros t [|lo] k a H; [|discriminate].
    exists [], t. repeat split; [simpl; lia|constructor|exact H]. }
  induction s as [|c s IH]; intros lo k a; simpl.
  - apply Hstop.
  - destruct (p c) eqn:Hp; [|apply Hstop].
    destruct (rep_greedy p (Nat.pred lo) s k) as [a'|] eqn:E; [|apply Hstop].
    intros H. injection H as ->.
    apply IH in E as (m & rest & -> & Hlo & Hall & Hk).
    exists (c :: m), rest. repeat split.
    + simpl. lia.
    + now constructor.
    + exact Hk.
Qed.

Lemma rmatch_sound {A} (r : regex) :
  forall (s : text) (caps : list text) (k : text -> list text -> option A)
         (a : A),
    rmatch r s caps k = Some a ->
    exists m rest caps',
      s = m ++ rest /\ lang r m /\ k rest caps' = Some a
      /\ (group_free r = true -> caps' = caps).
Proof.
  induction r as [p|l|r1 IH1 r2 IH2|r1 IH1 r2 IH2|r1 IH1|p lo|r1 IH1|];
    intros s caps k a; simpl.
  - destruct s as [|c s]; [discriminate|].
    destruct (p c) eqn:Hp; [|discriminate]. intros H.
    exists [c], s, caps. repeat split; eauto.
  - destruct (starts_with l s) eqn:E; [|discriminate]. intros H.
    exists l, (drop (length l) s), caps.
    repeat split; eauto using starts_with_app.
  - intros H.
    apply IH1 in H as (m1 & rest1 & caps1 & -> & L1 & H & G1).
    apply IH2 in H as (m2 & rest & caps2 & -> & L2 & H & G2).
    exists (m1 ++ m2), rest, caps2. repeat split.
    + now rewrite <- app_assoc.
    + now exists m1, m2.
    + exact H.
    + intros G. apply andb_true_iff in G as [Ga Gb].
      rewrite (G2 Gb). now apply G1.
  - destruct (rmatch r1 s caps k) as [a'|] eqn:E.
    + intros H. injection H as ->.
      apply IH1 in E as (m & rest & caps' & -> & L & H & G).
      exists m, rest, caps'. repeat split; [now left|exact H|].
      intros G'. apply andb_true_iff in G' as [Ga _]. now apply G.
    + intros H.
      apply IH2 in H as (m & rest & caps' & -> & L & H & G).
      exists m, rest, caps'. repeat split; [now right|exact H|].
      intros G'. apply andb_true_iff in G' as [_ Gb]. now apply G.
  - destruct (rmatch r1 s caps k) as [a'|] eqn:E.
    + intros H. injection H as ->.
      apply IH1 in E as (m & rest & caps' & -> & L & H & G).
      exists m, rest, caps'. repeat split; [now right|exact H|exact G].
    + intros H. exists [], s, caps. repeat split; [now left|exact H].
  - intros H.
    apply rep_greedy_sound in H as (m & rest & -> & Hlo & Hall & H).
    exists m, rest, caps. repeat split; eauto.
  - intros H.
    apply IH1 in H as (m & rest & caps' & -> & L & H & G).
    exists m, rest, (caps' ++ [take (length (m ++ rest) - length rest)
                                 (m ++ rest)]).
    repeat split; [exact L|exact H|discriminate].
  - destruct s as [|c [|d s]].
    + intros H. exists [], [], caps. repeat split; eauto.
    + destruct (c =? 10); [|discriminate]. intros H.
      exists [], [c], caps. repeat split; eauto.
    + discriminate.
Qed.

Lemma re_match_group_sound (body : regex) (s : text) (mo : match_obj) :
  group_free body = true ->
  re_match (Grp body) s = Some mo ->
  lang body (m_whole mo) /\ m_groups mo = [m_whole mo]
  /\ s = m_whole mo ++ m_rest mo.
Proof.
  intros G H. unfold re_match in H. simpl in H.
  apply rmatch_sound in H as (m & rest & caps' & -> & L & H & Hc).
  rewrite (Hc G) in H. rewrite take_matched in H.
  injection H as <-. simpl. now repeat split.
Qed.

Lemma findall_skip_head (r : regex) (s : text) (p : text) :
  head (findall_skip r 0 s) = Some p ->
  exists pre s' mo,
    s = pre ++ s' /\ re_match r s' = Some mo /\ p = findall_item mo.
Proof.
  induction s as [|c s IH]; simpl.
  - destruct (re_match r []) as [mo|] eqn:E; simpl; [|discriminate].
    intros H. injection H as <-. now exists [], [], mo.
  - destruct (re_match r (c :: s)) as [mo|] eqn:E; simpl.
    + intros H. injection H as <-. now exists [], (c :: s), mo.
    + intros H. apply IH in H as (pre & s' & mo & -> & Hm & ->).
      now exists (c :: pre), s', mo.
Qed.

Lemma digit_count_app (a b : text) :
  digit_count (a ++ b) = (digit_count a + digit_count b)%nat.
Proof.
  unfold digit_count. now rewrite List.filter_app, length_app.
Qed.

Lemma digit_count_single (c : N) : is_digit c = true -> digit_count [c] = 1%nat.
Proof.
  unfold digit_count. simpl. now intros ->.
Qed.

(** ** The phone number *)

(** C3, counterexample: in "1-------2" the phone pattern matches the whole
    text, which has two digits. *)
Lemma phone_with_two_digits :
  contact_phone (extract_contact_info (str "1-------2"))
    = Some (str "1-------2")
  /\ digit_count (str "1-------2") = 2%nat
  /\ ~ (8 <= digit_count (str "1-------2"))%nat.
Proof.
  split; [vm_compute; reflexivity|].
  split; [vm_compute; reflexivity|].
  vm_compute. lia.
Qed.

(** C3, amended: a phone value returned by [extract_contact_info] is a
    substring of the text that belongs to the language of the phone
    pattern; it has at least 9 characters and at least 2 digits (the
    pattern asks for a digit, at least 7 characters that are digits,
    hyphens, white space or parentheses, and a digit). *)
Theorem extract_contact_info_phone_shape (t p : text) :
  contact_phone (extract_contact_info t) = Some p ->
  (exists pre post, t = pre ++ p ++ post)
  /\ lang PHONE_RE p
  /\ (9 <= length p)%nat
  /\ (2 <= digit_count p)%nat.
Proof.
  unfold extract_contact_info, findall. simpl. intros H.
  apply findall_skip_head in H as (pre & s' & mo & -> & Hm & ->).
  apply re_match_group_sound in Hm as (L & Hg & ->); [|reflexivity].
  unfold findall_item. rewrite Hg.
  split; [now exists pre, (m_rest mo)|].
  split; [exact L|].
  destruct L as (m1 & m2 & -> & _ & (d1 & m3 & -> & (c1 & -> & Hc1)
                 & (m4 & d2 & -> & (Hlen & _) & (c2 & -> & Hc2)))).
  rewrite !digit_count_app, !length_app.
  rewrite (digit_count_single c1 Hc1), (digit_count_single c2 Hc2).
  simpl. lia.
Qed.

Lemma extract_contact_info_phone_shape_witness :
  (exists pre post,
      str "call +91 98765 43210 now"
        = pre ++ str "+91 98765 43210" ++ post)
  /\ lang PHONE_RE (str "+91 98765 43210")
  /\ (9 <= length (str "+91 98765 43210"))%nat
  /\ (2 <= digit_count (str "+91 98765 43210"))%nat.
Proof.
  apply (extract_contact_info_phone_shape
           (str "call +91 98765 43210 now") (str "+91 98765 43210")).
  vm_compute; reflexivity.
Defined.

(** ** Years *)

Lemma re_match_year (s : text) :
  re_match YEAR_RE s
  = if year_at s
    then Some (MatchObj (take 4 s) [take 4 s] (drop 4 s))
    else None.
Proof.
  unfold re_match, YEAR_RE, year_at.
  change (str "20") with [50; 48]. change (str "19") with [49; 57].
  change (ch "2") with 50. change (ch "0") with 48.
  change (ch "1") with 49. change (ch "9") with 57.
  destruct s as [|a [|b [|c [|d r]]]]; try reflexivity;
    cbn -[N.eqb is_digit Nat.sub];
    rewrite ?(N.eqb_sym a), ?(N.eqb_sym b);
    try replace (S (S (S (S (length r)))) - length r)%nat with 4%nat by lia;
    destruct (50 =? a), (49 =? a); try reflexivity;
    destruct (48 =? b), (57 =? b); try reflexivity;
    destruct (is_digit c); try reflexivity;
    destruct (is_digit d); try reflexivity.
Qed.

Lemma year_at_cons (s : text) :
  year_at s = true -> exists a b c d r, s = a :: b :: c :: d :: r.
Proof.
  destruct s as [|a [|b [|c [|d r]]]]; try discriminate. eauto 6.
Qed.

Lemma findall_year_nil (skip : nat) : findall_skip YEAR_RE skip [] = [].
Proof. destruct skip; reflexivity. Qed.

Lemma findall_year_cons (c : N) (s : text) :
  findall_skip YEAR_RE 0 (c :: s)
  = if year_at (c :: s)
    then take 4 (c :: s) :: findall_skip YEAR_RE 3 s
    else findall_skip YEAR_RE 0 s.
Proof.
  cbn [findall_skip]. rewrite re_match_year.
  destruct (year_at (c :: s)) eqn:E; [|reflexivity].
  apply year_at_cons in E as (a & b & c' & d & r & E).
  rewrite E. reflexivity.
Qed.

Lemma year_occurrences_In (s y : text) :
  In y (year_occurrences s)
  <-> exists j, year_at (drop j s) = true /\ y = take 4 (drop j s).
Proof.
  induction s as [|c s IH].
  - simpl. split; [tauto|]. intros (j & Hj & _).
    rewrite drop_nil in Hj. discriminate.
  - cbn [year_occurrences]. rewrite in_app_iff, IH. split.
    + intros [H|(j & Hj & ->)].
      * destruct (year_at (c :: s)) eqn:E; [|destruct H].
        destruct H as [<-|[]]. now exists 0%nat.
      * now exists (S j).
    + intros ([|j] & Hj & ->).
      * left. rewrite drop_0 in *. rewrite Hj. now left.
      * right. now exists j.
Qed.

Lemma findall_year_sound (s : text) :
  forall skip y,
    In y (findall_skip YEAR_RE skip s) -> In y (year_occurrences s).
Proof.
  induction s as [|c s IH]; intros skip y.
  - now rewrite findall_year_nil.
  - cbn [year_occurrences]. rewrite in_app_iff. destruct skip as [|n].
    + rewrite findall_year_cons.
      destruct (year_at (c :: s)).
      * intros [<-|H]; [left; now left|right; now apply (IH 3%nat)].
      * intros H. right. now apply (IH 0%nat).
    + cbn [findall_skip]. intros H. right. now apply (IH n).
Qed.

Lemma findall_year_complete (s : text) :
  forall skip,
    no_year_overlap s ->
    (forall j, (j < skip)%nat -> year_at (drop j s) = false) ->
    forall j, year_at (drop j s) = true ->
              In (take 4 (drop j s)) (findall_skip YEAR_RE skip s).
Proof.
  induction s as [|c s IH]; intros skip Hno Hskip j Hj.
  - rewrite drop_nil in Hj. discriminate.
  - assert (Hno' : no_year_overlap s).
    { intros i d Hi Hd. apply (Hno (S i) d Hi Hd). }
    destruct skip as [|n].
    + rewrite findall_year_cons. destruct (year_at (c :: s)) eqn:E.
      * destruct j as [|j]; [now left|right].
        apply (IH 3%nat Hno'); [|exact Hj].
        intros i Hi. apply (Hno 0%nat (S i)); [exact E|lia].
      * destruct j as [|j].
        { rewrite drop_0 in Hj. congruence. }
        apply (IH 0%nat Hno'); [|exact Hj]. intros i Hi. lia.
    + cbn [findall_skip]. destruct j as [|j].
      * rewrite (Hskip 0%nat) in Hj; [discriminate|lia].
      * apply (IH n Hno'); [|exact Hj].
        intros i Hi. apply (Hskip (S i)). lia.
Qed.

Lemma py_int_year (s : text) :
  year_at s = true -> is_Some (py_int (take 4 s)).
Proof.
  intros H. pose proof H as H'.
  apply year_at_cons in H' as (a & b & c & d & r & ->).
  unfold year_at in H.
  change (ch "2") with 50 in H. change (ch "0") with 48 in H.
  change (ch "1") with 49 in H. change (ch "9") with 57 in H.
  apply andb_true_iff in H as [H Hd]. apply andb_true_iff in H as [H Hc].
  assert (Ha : is_digit a = true /\ is_digit b = true).
  { apply orb_true_iff in H as [H|H]; apply andb_true_iff in H as [Ha Hb];
      apply N.eqb_eq in Ha as ->; apply N.eqb_eq in Hb as ->; now split. }
  destruct Ha as [Ha Hb].
  cbn [take py_int int_acc]. rewrite Ha, Hb, Hc, Hd. eauto.
Qed.

Lemma omap_total {A B} (f : A -> option B) (l : list A) :
  (forall x, In x l -> is_Some (f x)) -> length (omap f l) = length l.
Proof.
  induction l as [|x l IH]; intros H; simpl.
  - reflexivity.
  - destruct (H x (or_introl eq_refl)) as [y ->]. simpl.
    f_equal. apply IH. intros z Hz. apply H. now right.
Qed.

(** [int(y)] succeeds on every year that [findall] lists. *)
Lemma found_years_total (t : text) :
  length (found_years t) = length (findall YEAR_RE t).
Proof.
  unfold found_years. apply omap_total. intros y Hy.
  apply findall_year_sound, year_occurrences_In in Hy as (j & Hj & ->).
  now apply py_int_year.
Qed.

Lemma distinct_years_spec (l : list text) :
  StronglySorted Z.le (distinct_years l)
  /\ List.NoDup (distinct_years l)
  /\ forall y, In y (distinct_years l) <-> In y (omap py_int l).
Proof.
  unfold distinct_years. split; [|split].
  - apply (py_sorted_sorted (fun y : Z => y)).
  - eapply Permutation_NoDup; [symmetry; apply py_sorted_perm|].
    apply NoDup_ListNoDup, NoDup_elements.
  - intros y. rewrite py_sorted_In, <- !list_elem_of_In.
    now rewrite elem_of_elements, elem_of_list_to_set.
Qed.

Lemma last_In (ys : list Z) (d : Z) : ys <> [] -> In (List.last ys d) ys.
Proof.
  induction ys as [|x [|y ys] IH]; intros H.
  - congruence.
  - now left.
  - right. apply IH. discriminate.
Qed.

Lemma sorted_hd_last (ys : list Z) :
  StronglySorted Z.le ys ->
  forall y, In y ys -> (List.hd 0 ys <= y <= List.last ys 0)%Z.
Proof.
  induction 1 as [|x l Hs IH Hx]; intros y Hy.
  - destruct Hy.
  - rewrite List.Forall_forall in Hx.
    destruct l as [|z l].
    + destruct Hy as [<-|[]]. simpl. lia.
    + change (List.last (x :: z :: l) 0%Z) with (List.last (z :: l) 0%Z).
      cbn [List.hd]. destruct Hy as [<-|Hy].
      * split; [lia|]. apply Hx, last_In. discriminate.
      * split; [now apply Hx|]. now apply IH.
Qed.

Lemma two_members_length (ys : list Z) (a b : Z) :
  In a ys -> In b ys -> a <> b -> (2 <= length ys)%nat.
Proof.
  destruct ys as [|x [|y ys]]; simpl; intros Ha Hb Hab.
  - destruct Ha.
  - destruct Ha as [<-|[]], Hb as [<-|[]]. congruence.
  - lia.
Qed.

Lemma years_span_spec (t : text) (a b : Z) :
  In a (found_years t) -> In b (found_years t) -> a <> b ->
  exists lo hi,
    In lo (found_years t) /\ In hi (found_years t)
    /\ (forall y, In y (found_years t) -> (lo <= y <= hi)%Z)
    /\ years_span t = Some (hi - lo)%Z.
Proof.
  unfold found_years, years_span. intros Ha Hb Hab.
  destruct (distinct_years_spec (findall YEAR_RE t)) as (Hs & _ & Hin).
  destruct (findall YEAR_RE t) as [|y0 l] eqn:E; [destruct Ha|].
  apply Hin in Ha, Hb.
  pose proof (two_members_length _ a b Ha Hb Hab) as Hlen.
  apply Nat.leb_le in Hlen. rewrite Hlen.
  assert (Hne : distinct_years (y0 :: l) <> []).
  { intros Hnil. rewrite Hnil in Ha. destruct Ha. }
  exists (List.hd 0%Z (distinct_years (y0 :: l))),
         (List.last (distinct_years (y0 :: l)) 0%Z).
  split; [|split; [|split]].
  - apply Hin. destruct (distinct_years (y0 :: l)); [congruence|now left].
  - apply Hin. now apply last_In.
  - intros y Hy. apply sorted_hd_last; [exact Hs|now apply Hin].
  - reflexivity.
Qed.

Lemma extract_experience_years_fallback (t : text) :
  search YEARS_EXP_RE (lower t) = None ->
  extract_experience_years t = years_span t.
Proof.
  intros H. unfold extract_experience_years, explicit_years. now rewrite H.
Qed.

Lemma only_2018_2021_no_overlap (t : text) :
  (forall y, In y (year_occurrences t) -> y = str "2018" \/ y = str "2021") ->
  no_year_overlap t.
Proof.
  intros H j d Hj Hd.
  destruct (year_at (drop (j + d) t)) eqn:E; [exfalso|reflexivity].
  assert (H1 : In (take 4 (drop j t)) (year_occurrences t)).
  { apply year_occurrences_In. now exists j. }
  assert (H2 : In (take 4 (drop (j + d) t)) (year_occurrences t)).
  { apply year_occurrences_In. now exists (j + d)%nat. }
  apply H in H1, H2. rewrite <- drop_drop in E, H2.
  change (str "2018") with [50; 48; 49; 56] in *.
  change (str "2021") with [50; 48; 50; 49] in *.
  destruct (year_at_cons _ Hj) as (a & b & c & e & r & Hu).
  rewrite Hu in *. cbn [take] in H1.
  destruct (year_at_cons _ E) as (a' & b' & c' & e' & r' & Hv).
  rewrite Hv in H2. cbn [take] in H2.
  destruct d as [|[|[|[|d]]]]; try lia; cbn [drop] in Hv;
    destruct H1 as [H1|H1], H2 as [H2|H2]; simplify_eq.
Qed.

Lemma starts_with_year (y u : text) :
  year_at y = true -> length y = 4%nat ->
  starts_with y u = true -> year_at u = true /\ take 4 u = y.
Proof.
  intros Hy Hlen Hs. apply starts_with_app in Hs. rewrite Hs.
  destruct y as [|a [|b [|c [|d [|e y]]]]]; try discriminate Hlen.
  split; [exact Hy|reflexivity].
Qed.

Lemma contains_offset (s t : text) :
  contains s t = true -> exists j, starts_with s (drop j t) = true.
Proof.
  intros H. destruct (find_spec t s) as [[Hc _]|[_ (n & _ & Hn & _)]].
  - congruence.
  - now exists n.
Qed.

Lemma found_years_In (t : text) (z : Z) :
  In z (found_years t)
  <-> exists y, In y (findall YEAR_RE t) /\ py_int y = Some z.
Proof.
  unfold found_years. rewrite <- list_elem_of_In, list_elem_of_omap.
  split; intros (y & Hy & Hz); exists y; split;
    try exact Hz; now apply list_elem_of_In.
Qed.

Lemma found_year_of_occurrence (t y : text) (z : Z) :
  no_year_overlap t ->
  year_at y = true -> length y = 4%nat -> py_int y = Some z ->
  contains y t = true ->
  In z (found_years t).
Proof.
  intros Hno Hy Hlen Hz Hc.
  apply contains_offset in Hc as (j & Hj).
  apply (starts_with_year y _ Hy Hlen) in Hj as [Hat Htake].
  apply found_years_In. exists y. split; [|exact Hz].
  rewrite <- Htake. unfold findall.
  apply findall_year_complete; [exact Hno| |exact Hat].
  intros i Hi. lia.
Qed.

(** ** Claims on [extract_experience_years] *)

(** When no two substrings of the form 19xx or 20xx overlap, [findall]
    lists every one of them. *)
Lemma findall_year_all_occurrences (t y : text) :
  no_year_overlap t ->
  In y (findall YEAR_RE t) <-> In y (year_occurrences t).
Proof.
  intros Hno. split.
  - apply findall_year_sound.
  - intros H. apply year_occurrences_In in H as (j & Hj & ->).
    unfold findall. apply findall_year_complete; [exact Hno| |exact Hj].
    intros i Hi. lia.
Qed.

Lemma substring_years_found (t : text) (z : Z) :
  no_year_overlap t ->
  In z (found_years t) <-> In z (substring_years t).
Proof.
  intros Hno. rewrite found_years_In. unfold substring_years.
  rewrite <- list_elem_of_In, list_elem_of_omap.
  split; intros (y & Hy & Hz); exists y; split; try exact Hz.
  - now apply list_elem_of_In, (findall_year_all_occurrences t y Hno).
  - now apply (findall_year_all_occurrences t y Hno), list_elem_of_In.
Qed.

(** C8, counterexample: "201920" has no match of the "X years" pattern and
    two substrings of the form 19xx or 20xx, 2019 and 1920, two different
    years; the difference is 99, but [extract_experience_years] returns
    nothing: [findall] does not search inside the match 2019, so that 1920
    is not collected. *)
Lemma experience_years_overlapping_years :
  search YEARS_EXP_RE (lower (str "201920")) = None
  /\ substring_years (str "201920") = [2019%Z; 1920%Z]
  /\ found_years (str "201920") = [2019%Z]
  /\ extract_experience_years (str "201920") = None.
Proof. repeat split; vm_compute; reflexivity. Qed.

(** C8, amended: when the "X years" pattern has no match in the lower-cased
    text and the years that [findall] collects (it scans from left to right
    and does not search inside a match) include two different ones,
    [extract_experience_years] returns the greatest of them minus the
    least.  When no two substrings of the form 19xx or 20xx overlap, these
    are the years of all such substrings, and the result is the greatest
    minus the least of those.  In particular a text in which "2018" and
    "2021" occur, and no other substring of the form 19xx or 20xx, gives
    3. *)
Theorem experience_years_is_year_span (t : text) :
  search YEARS_EXP_RE (lower t) = None ->
  (forall a b,
      In a (found_years t) -> In b (found_years t) -> a <> b ->
      exists lo hi,
        In lo (found_years t) /\ In hi (found_years t)
        /\ (forall y, In y (found_years t) -> (lo <= y <= hi)%Z)
        /\ extract_experience_years t = Some (hi - lo)%Z)
  /\ (no_year_overlap t ->
      forall a b,
        In a (substring_years t) -> In b (substring_years t) -> a <> b ->
        exists lo hi,
          In lo (substring_years t) /\ In hi (substring_years t)
          /\ (forall y, In y (substring_years t) -> (lo <= y <= hi)%Z)
          /\ extract_experience_years t = Some (hi - lo)%Z)
  /\ (contains (str "2018") t = true ->
      contains (str "2021") t = true ->
      (forall y, In y (year_occurrences t) ->
                 y = str "2018" \/ y = str "2021") ->
      extract_experience_years t = Some 3%Z).
Proof.
  intros Hprim. rewrite (extract_experience_years_fallback t Hprim).
  split; [apply years_span_spec|]. split.
  { intros Hno a b Ha Hb Hab.
    apply (substring_years_found t _ Hno) in Ha, Hb.
    destruct (years_span_spec t a b Ha Hb Hab)
      as (lo & hi & Hlo & Hhi & Hbnd & Hres).
    exists lo, hi.
    split; [now apply (substring_years_found t _ Hno)|].
    split; [now apply (substring_years_found t _ Hno)|].
    split; [|exact Hres].
    intros y Hy. apply Hbnd. now apply (substring_years_found t _ Hno). }
  intros H18 H21 Honly.
  pose proof (only_2018_2021_no_overlap t Honly) as Hno.
  assert (Ha : In 2018%Z (found_years t)).
  { now apply (found_year_of_occurrence t (str "2018")). }
  assert (Hb : In 2021%Z (found_years t)).
  { now apply (found_year_of_occurrence t (str "2021")). }
  assert (Hall : forall z, In z (found_years t) -> z = 2018%Z \/ z = 2021%Z).
  { intros z Hz. apply found_years_In in Hz as (y & Hy & Hz).
    apply findall_year_sound, Honly in Hy.
    destruct Hy as [Hy|Hy]; subst y; vm_compute in Hz;
      injection Hz as <-; tauto. }
  destruct (years_span_spec t 2018 2021 Ha Hb ltac:(lia))
    as (lo & hi & Hlo & Hhi & Hbnd & ->).
  pose proof (Hbnd _ Ha). pose proof (Hbnd _ Hb).
  apply Hall in Hlo, Hhi. f_equal. lia.
Qed.

Lemma experience_years_is_year_span_witness :
  (exists lo hi,
      In lo (found_years (str "2018 - 2021"))
      /\ In hi (found_years (str "2018 - 2021"))
      /\ (forall y, In y (found_years (str "2018 - 2021")) ->
                    (lo <= y <= hi)%Z)
      /\ extract_experience_years (str "2018 - 2021") = Some (hi - lo)%Z)
  /\ (exists lo hi,
        In lo (substring_years (str "2018 - 2021"))
        /\ In hi (substring_years (str "2018 - 2021"))
        /\ (forall y, In y (substring_years (str "2018 - 2021")) ->
                      (lo <= y <= hi)%Z)
        /\ extract_experience_years (str "2018 - 2021")
           = Some (hi - lo)%Z)
  /\ extract_experience_years (str "2018 - 2021") = Some 3%Z.
Proof.
  assert (Honly : forall y, In y (year_occurrences (str "2018 - 2021")) ->
                            y = str "2018" \/ y = str "2021").
  { intros y Hy. vm_compute in Hy.
    destruct Hy as [<-|[<-|[]]]; [left|right]; reflexivity. }
  destruct (experience_years_is_year_span (str "2018 - 2021"))
    as (H1 & H2 & H3).
  - vm_compute; reflexivity.
  - split; [|split].
    + apply (H1 2018%Z 2021%Z).
      * vm_compute; tauto.
      * vm_compute; tauto.
      * lia.
    + apply (H2 (only_2018_2021_no_overlap _ Honly) 2018%Z 2021%Z).
      * vm_compute; tauto.
      * vm_compute; tauto.
      * lia.
    + apply H3.
      * vm_compute; reflexivity.
      * vm_compute; reflexivity.
      * exact Honly.
Defined.



(** ** The vocabulary global stays reachable *)

Lemma load_skills_master_reachable (w : world) (st st' : state)
    (r : result (gset text)) :
  cache_reachable st -> _load_skills_master w st = (r, st') ->
  cache_reachable st'.
Proof.
  unfold cache_reachable, _load_skills_master. intros Hc.
  destruct (_skills_master st) as [v|] eqn:E.
  - intros H. injection H as _ <-. now rewrite E.
  - destruct (read_skills_master w) as [v|e] eqn:Er; intros H;
      injection H as _ <-; simpl.
    + now exists w.
    + now rewrite E.
Qed.

Lemma extract_skills_reachable (w : world) (t : text) (top_k : Z)
    (scorer : text -> text -> Q) (st st' : state) (r : result (list text)) :
  cache_reachable st -> extract_skills w t top_k scorer st = (r, st') ->
  cache_reachable st'.
Proof.
  unfold extract_skills, bind, ret, raise. intros Hc.
  destruct (_load_skills_master w st) as [[vocab|e] st1] eqn:E.
  - destruct (get_nlp_ok w st1) as (nlp & st2 & -> & Hs).
    apply (load_skills_master_reachable w st st1 _ Hc) in E.
    destruct (noun_chunks_available _ _); intros H; injection H as H1 H2;
      subst st'; unfold cache_reachable in *; now rewrite Hs.
  - intros H. injection H as _ <-.
    now apply (load_skills_master_reachable w st st1 _ Hc) in E.
Qed.

Lemma parse_resume_reachable (w : world) (path : text) (st st' : state)
    (r : result profile) :
  cache_reachable st -> parse_resume w path st = (r, st') ->
  cache_reachable st'.
Proof.
  unfold parse_resume. intros Hc.
  destruct (extract_text w path) as [t|e].
  - unfold bind, ret.
    destruct (extract_name_ok w t st) as (nm & st1 & -> & Hs).
    assert (Hc1 : cache_reachable st1).
    { unfold cache_reachable in *. now rewrite Hs. }
    destruct (extract_skills w t 60 (token_sort_ratio w) st1)
      as [[sk|e] st2] eqn:E; intros H; injection H as _ <-;
      now apply (extract_skills_reachable w t 60 _ st1 st2 _ Hc1) in E.
  - intros H. now injection H as _ <-.
Qed.

(** ** Examples *)

(** With the blank entry in the skills file the empty string is reported
    as a skill of a text that names no skill at all. *)
Example blank_entry_is_reported_as_skill :
  fst (extract_skills world_blank_skill (str "no skill here") 60
         exact_ratio initial_state)
  = Ok [[]].
Proof. vm_compute; reflexivity. Qed.

Lemma extract_skills_sorted_by_offset_witness :
  StronglySorted
    (fun a b => (find (lower typo_text) a <= find (lower typo_text) b)%Z)
    [str "python"; str "sql"]
  /\ forall s, In s [str "python"; str "sql"] ->
       (contains s (lower typo_text) = true
        /\ exists n, find (lower typo_text) s = Z.of_nat n
                     /\ first_occurrence s (lower typo_text) n)
       \/ (contains s (lower typo_text) = false
           /\ find (lower typo_text) s = (-1)%Z).
Proof.
  apply (extract_skills_sorted_by_offset world0 typo_text 60 typo_ratio
           initial_state
           (snd (extract_skills world0 typo_text 60 typo_ratio
                   initial_state))
           [str "python"; str "sql"]).
  vm_compute; reflexivity.
Defined.

Lemma extract_skills_exact_complete_witness :
  In (str "python") [str "sql"; str "python"].
Proof.
  apply (extract_skills_exact_complete world0 sample_text 60 exact_ratio
           initial_state
           (State (Some (list_to_set fallback_skills)) None)
           (snd (extract_skills world0 sample_text 60 exact_ratio
                   initial_state))
           (list_to_set fallback_skills)
           [str "sql"; str "python"] (str "python")).
  - vm_compute; reflexivity.
  - vm_compute; reflexivity.
  - apply elem_of_list_to_set, list_elem_of_In. vm_compute; tauto.
  - vm_compute; reflexivity.
Defined.

Lemma extract_skills_in_vocabulary_nodup_witness :
  (exists vocab st1,
      _load_skills_master world0 initial_state = (Ok vocab, st1)
      /\ forall s, In s [str "sql"; str "python"] -> s ∈ vocab)
  /\ List.NoDup [str "sql"; str "python"]
  /\ List.NoDup (List.map lower [str "sql"; str "python"]).
Proof.
  apply (extract_skills_in_vocabulary_nodup world0 sample_text 60
           exact_ratio initial_state
           (snd (extract_skills world0 sample_text 60 exact_ratio
                   initial_state))
           [str "sql"; str "python"]).
  - exact I.
  - vm_compute; reflexivity.
Defined.

Lemma skills_and_education_lowercase_witness :
  (forall s, In s [str "sql"; str "python"] ->
     is_lowercase s /\ Forall (fun c => is_upper c = false) s)
  /\ (forall d, In d (extract_education sample_text) ->
        In d degrees
        /\ is_lowercase d /\ Forall (fun c => is_upper c = false) d).
Proof.
  apply (skills_and_education_lowercase world0 sample_text 60 exact_ratio
           initial_state
           (snd (extract_skills world0 sample_text 60 exact_ratio
                   initial_state))
           [str "sql"; str "python"]).
  - exact I.
  - vm_compute; reflexivity.
Defined.

(** ** What the loader keeps *)

(** The members of the vocabulary read from a list of names: the names
    that are not empty, trimmed and lower-cased. *)
Lemma normalized_set_members (l : list json_entry) (v : gset text) (x : text) :
  normalized_set l = Ok v ->
  x ∈ v <-> exists s, In (JString s) l /\ s <> [] /\ x = lower (strip s).
Proof.
  revert v. induction l as [|e l IH]; simpl; intros v H.
  - injection H as <-. split.
    + intros Hx. now apply not_elem_of_empty in Hx.
    + intros (s & [] & _).
  - destruct e as [s0|b]; simpl in H.
    + destruct s0 as [|c s0]; simpl in H.
      * rewrite (IH v H). split; intros (s & Hin & Hne & Hx); exists s.
        { repeat split; auto. }
        { destruct Hin as [Hin|Hin]; [|now repeat split].
          injection Hin as <-. congruence. }
      * destruct (normalized_set l) as [v'|] eqn:E; [|discriminate].
        injection H as <-. rewrite elem_of_union, elem_of_singleton.
        rewrite (IH v' eq_refl). split.
        { intros [->|(s & Hin & Hne & Hx)].
          - exists (c :: s0). repeat split; [now left|discriminate].
          - exists s. repeat split; auto. }
        { intros (s & [Hin|Hin] & Hne & Hx).
          - injection Hin as <-. now left.
          - right. now exists s. }
    + destruct b; [discriminate|].
      rewrite (IH v H). split; intros (s & Hin & Hne & Hx); exists s.
      * repeat split; auto.
      * destruct Hin as [Hin|Hin]; [discriminate|now repeat split].
Qed.
(** ** Trimming *)

Lemma lstrip_spec (s : text) :
  exists pre, s = pre ++ lstrip s
              /\ Forall (fun c => is_space c = true) pre
              /\ (forall c r, lstrip s = c :: r -> is_space c = false).
Proof.
  induction s as [|c s (pre & Hs & Hpre & Hhd)]; simpl.
  - exists []. repeat split; [constructor|discriminate].
  - destruct (is_space c) eqn:E.
    + exists (c :: pre). repeat split.
      * simpl. now f_equal.
      * now constructor.
      * exact Hhd.
    + exists []. repeat split; [constructor|].
      intros c' r H. now injection H as <- _.
Qed.

Lemma lstrip_fixed (s : text) :
  (forall c r, s = c :: r -> is_space c = false) -> lstrip s = s.
Proof.
  destruct s as [|c s]; simpl; intros H; [reflexivity|].
  now rewrite (H c s eq_refl).
Qed.

Lemma lstrip_idem (s : text) : lstrip (lstrip s) = lstrip s.
Proof.
  destruct (lstrip_spec s) as (pre & _ & _ & H). now apply lstrip_fixed.
Qed.

Lemma rstrip_idem (s : text) : rstrip (rstrip s) = rstrip s.
Proof.
  unfold rstrip. now rewrite rev_involutive, lstrip_idem.
Qed.

Lemma rstrip_spec (s : text) :
  exists post, s = rstrip s ++ post
               /\ Forall (fun c => is_space c = true) post.
Proof.
  unfold rstrip. destruct (lstrip_spec (rev s)) as (pre & Hs & Hpre & _).
  exists (rev pre). split.
  - rewrite <- rev_app_distr, <- Hs. now rewrite rev_involutive.
  - now apply List.Forall_rev.
Qed.

Lemma rstrip_keeps_head (s : text) (c : N) (r : text) :
  rstrip s = c :: r -> exists r', s = c :: r'.
Proof.
  intros H. destruct (rstrip_spec s) as (post & Hs & _).
  rewrite H in Hs. simpl in Hs. eauto.
Qed.

Lemma strip_head (s : text) (c : N) (r : text) :
  strip s = c :: r -> is_space c = false.
Proof.
  unfold strip. intros H.
  destruct (rstrip_keeps_head _ _ _ H) as (r' & Hr).
  destruct (lstrip_spec s) as (_ & _ & _ & Hhd). now apply (Hhd c r').
Qed.

Lemma strip_idem (s : text) : strip (strip s) = strip s.
Proof.
  unfold strip at 1.
  rewrite (lstrip_fixed (strip s)) by (intros c r; apply strip_head).
  unfold strip. apply rstrip_idem.
Qed.

Lemma is_space_outside (c : N) :
  (33 <= c < 133 \/ 161 <= c) -> is_space c = false.
Proof.
  intros H. unfold is_space, in_range.
  repeat (match goal with
          | |- context [?a <=? ?b] => destruct (N.leb_spec a b)
          | |- context [?a =? ?b] => destruct (N.eqb_spec a b)
          end; try (exfalso; lia)); reflexivity.
Qed.

Lemma is_upper_range (c : N) :
  is_upper c = true -> 65 <= c <= 90 \/ 192 <= c <= 222.
Proof.
  unfold is_upper, is_ascii_upper, in_range. intros H.
  apply orb_true_iff in H as [H|H].
  - apply andb_true_iff in H as [H1 H2].
    apply N.leb_le in H1, H2. lia.
  - apply andb_true_iff in H as [H _].
    apply andb_true_iff in H as [H1 H2].
    apply N.leb_le in H1, H2. lia.
Qed.

Lemma is_space_lower_char (c : N) : is_space (lower_char c) = is_space c.
Proof.
  unfold lower_char. destruct (is_upper c) eqn:E; [|reflexivity].
  apply is_upper_range in E.
  rewrite !is_space_outside by lia. reflexivity.
Qed.

Lemma lstrip_lower (s : text) : lstrip (lower s) = lower (lstrip s).
Proof.
  induction s as [|c s IH]; simpl; [reflexivity|].
  rewrite is_space_lower_char. destruct (is_space c); [exact IH|reflexivity].
Qed.

Lemma rev_lower (s : text) : rev (lower s) = lower (rev s).
Proof. unfold lower. symmetry. apply List.map_rev. Qed.

Lemma strip_lower (s : text) : strip (lower s) = lower (strip s).
Proof.
  unfold strip, rstrip.
  now rewrite lstrip_lower, rev_lower, lstrip_lower, rev_lower.
Qed.

(** ** The learning path *)

Module LearningPathFacts.
Import LearningPath.

Lemma normalize_skill_fixed (s : text) :
  normalize_skill (normalize_skill s) = normalize_skill s.
Proof.
  unfold normalize_skill. now rewrite strip_lower, strip_idem, lower_idem.
Qed.

(** X1: a normalised skill is in lower case and trimmed, and normalising
    it again changes nothing. *)
Theorem normalize_skill_idem (s : text) :
  lower (normalize_skill s) = normalize_skill s
  /\ strip (normalize_skill s) = normalize_skill s
  /\ normalize_skill (normalize_skill s) = normalize_skill s.
Proof.
  split; [apply lower_idem|]. split; [|apply normalize_skill_fixed].
  unfold normalize_skill. now rewrite strip_lower, strip_idem.
Qed.

Section PySortedStable.
Context {A : Type} (key : A -> Z).

Lemma insert_by_key_filter (k : Z) (x : A) (l : list A) :
  List.filter (fun y => (key y =? k)%Z) (insert_by_key key x l)
  = List.filter (fun y => (key y =? k)%Z) (x :: l).
Proof.
  induction l as [|y l IH]; [reflexivity|].
  cbn [insert_by_key]. destruct (Z.leb_spec (key x) (key y)) as [Hle|Hgt].
  - reflexivity.
  - cbn [List.filter] in *. rewrite IH.
    destruct (Z.eqb_spec (key y) k), (Z.eqb_spec (key x) k);
      try reflexivity. lia.
Qed.

(** [sorted] is stable: the elements with one key keep their order. *)
Lemma py_sorted_stable (k : Z) (l : list A) :
  List.filter (fun y => (key y =? k)%Z) (py_sorted key l)
  = List.filter (fun y => (key y =? k)%Z) l.
Proof.
  induction l as [|x l IH]; [reflexivity|].
  cbn [py_sorted]. rewrite insert_by_key_filter.
  cbn [List.filter]. now rewrite IH.
Qed.

Lemma filter_below_none (c : Z) (x : A) (l : list A) :
  Forall (key_le key x) l -> (c <= key x)%Z ->
  List.filter (fun y => (key y <? c)%Z) l = [].
Proof.
  induction 1 as [|y l Hy Hl IH]; intros Hc; [reflexivity|].
  cbn [List.filter]. unfold key_le in Hy.
  destruct (Z.ltb_spec (key y) c); [lia|]. now apply IH.
Qed.

(** In a sorted list the elements with a key below [c] come first. *)
Lemma sorted_split (c : Z) (l : list A) :
  StronglySorted (key_le key) l ->
  l = List.filter (fun y => (key y <? c)%Z) l
      ++ List.filter (fun y => negb (key y <? c)%Z) l.
Proof.
  induction 1 as [|x l Hs IH Hx]; [reflexivity|].
  cbn [List.filter]. destruct (Z.ltb_spec (key x) c) as [Hlt|Hge]; simpl.
  - now f_equal.
  - rewrite (filter_below_none c x l Hx Hge) in *. simpl in *.
    now f_equal.
Qed.

End PySortedStable.

Lemma priority_index_pairs : priority_index = list_to_map priority_pairs.
Proof. vm_compute. reflexivity. Qed.

Lemma in_priority_In (s : text) :
  in_priority s = true <-> In s SKILL_PRIORITY.
Proof.
  unfold in_priority. rewrite existsb_exists. split.
  - intros (x & Hx & Heq). apply bool_decide_eq_true in Heq. now subst.
  - intros H. exists s. split; [exact H|]. now apply bool_decide_eq_true.
Qed.

(** The key of a skill is its position in [SKILL_PRIORITY], or 121 for a
    skill that is not in the list. *)
Lemma sort_key_spec (s : text) :
  (exists i, SKILL_PRIORITY !! i = Some s /\ sort_key s = Z.of_nat i
             /\ (sort_key s < 21)%Z /\ in_priority s = true)
  \/ (~ In s SKILL_PRIORITY /\ sort_key s = 121%Z /\ in_priority s = false).
Proof.
  destruct (priority_index !! s) as [i|] eqn:E.
  - left. pose proof E as E'. rewrite priority_index_pairs in E'.
    apply elem_of_list_to_map_2, list_elem_of_In in E'.
    vm_compute in E'.
    repeat (destruct E' as [E'|E'];
            [injection E' as <- <-;
             match goal with
             | |- context [sort_key ?x] => exists (Z.to_nat (sort_key x))
             end; vm_compute; repeat split; congruence|]).
    destruct E'.
  - right. unfold sort_key. rewrite E.
    rewrite priority_index_pairs in E.
    apply not_elem_of_list_to_map_2 in E.
    change (priority_pairs.*1) with SKILL_PRIORITY in E.
    rewrite list_elem_of_In in E.
    split; [exact E|]. split; [vm_compute; reflexivity|].
    destruct (in_priority s) eqn:Ep; [|reflexivity].
    now apply in_priority_In in Ep.
Qed.

Lemma sort_key_unknown (s : text) :
  negb (sort_key s <? 21)%Z = negb (in_priority s)
  /\ (sort_key s =? 121)%Z = negb (in_priority s).
Proof.
  destruct (sort_key_spec s) as [(i & _ & _ & Hlt & ->)|(_ & -> & ->)].
  - destruct (Z.ltb_spec (sort_key s) 21), (Z.eqb_spec (sort_key s) 121);
      simpl; split; try reflexivity; lia.
  - now split.
Qed.

Lemma sort_missing_skills_perm (ms : list text) :
  Permutation (sort_missing_skills ms) (List.map normalize_skill ms).
Proof. apply py_sorted_perm. Qed.

Lemma SKILL_PRIORITY_NoDup : NoDup SKILL_PRIORITY.
Proof.
  apply NoDup_ListNoDup.
  unfold SKILL_PRIORITY. cbn [List.map].
  repeat (constructor; [cbn [In]; intros H; intuition discriminate|]).
  constructor.
Qed.

Lemma sort_key_position (s : text) (i : nat) :
  SKILL_PRIORITY !! i = Some s -> sort_key s = Z.of_nat i.
Proof.
  intros Hi.
  destruct (sort_key_spec s) as [(j & Hj & -> & _)|(Hnot & _)].
  - f_equal. apply (NoDup_lookup SKILL_PRIORITY j i s);
      [apply SKILL_PRIORITY_NoDup|exact Hj|exact Hi].
  - destruct Hnot. apply list_elem_of_In. now apply list_elem_of_lookup_2 in Hi.
Qed.

Lemma StronglySorted_filter_impl {A} (R R' : A -> A -> Prop)
    (p : A -> bool) (l : list A) :
  (forall a b, p a = true -> p b = true -> R a b -> R' a b) ->
  StronglySorted R l -> StronglySorted R' (List.filter p l).
Proof.
  intros Himp. induction 1 as [|x l Hs IH Hx]; [constructor|].
  cbn [List.filter]. destruct (p x) eqn:Ex; [|exact IH].
  constructor; [exact IH|].
  apply List.Forall_forall. intros y Hy.
  apply List.filter_In in Hy as [Hy Hp].
  apply (Himp x y Ex Hp).
  now apply (proj1 (List.Forall_forall _ _) Hx).
Qed.

(** X2: [sort_missing_skills] returns the normalised skills (duplicates
    kept) sorted by their key; the key of a skill of [SKILL_PRIORITY] is
    its position in that list and the key of any other skill is the length
    of the list plus 100.  So the skills of [SKILL_PRIORITY] come first, in
    the order of that list, and after them the others in the order of the
    input. *)
Theorem sort_missing_skills_priority_then_input_order (ms : list text) :
  Permutation (sort_missing_skills ms) (List.map normalize_skill ms)
  /\ (forall s,
        (forall i : nat,
            SKILL_PRIORITY !! i = Some s -> sort_key s = Z.of_nat i)
        /\ (~ In s SKILL_PRIORITY ->
            sort_key s = (Z.of_nat (length SKILL_PRIORITY) + 100)%Z))
  /\ StronglySorted (key_le sort_key) (sort_missing_skills ms)
  /\ sort_missing_skills ms
     = List.filter in_priority (sort_missing_skills ms)
       ++ List.filter (fun s => negb (in_priority s))
            (List.map normalize_skill ms)
  /\ StronglySorted priority_order
       (List.filter in_priority (sort_missing_skills ms))
  /\ (forall s,
        In s (List.filter in_priority (sort_missing_skills ms))
        <-> In s SKILL_PRIORITY /\ In s (List.map normalize_skill ms)).
Proof.
  unfold sort_missing_skills.
  split; [apply py_sorted_perm|]. split.
  { intros s. split; [apply sort_key_position|]. intros Hnot.
    destruct (sort_key_spec s) as [(i & Hi & _)|(_ & -> & _)];
      [|reflexivity].
    destruct Hnot. apply list_elem_of_In. now apply list_elem_of_lookup_2 in Hi. }
  split; [apply py_sorted_sorted|]. split; [|split].
  - rewrite (sorted_split sort_key 21
               (py_sorted sort_key (List.map normalize_skill ms))) at 1
      by apply py_sorted_sorted.
    f_equal.
    + apply List.filter_ext. intros s.
      destruct (sort_key_unknown s) as [H _].
      apply (f_equal negb) in H. now rewrite !negb_involutive in H.
    + transitivity (List.filter (fun y => (sort_key y =? 121)%Z)
                      (py_sorted sort_key (List.map normalize_skill ms))).
      * apply List.filter_ext. intros s.
        destruct (sort_key_unknown s) as [H1 H2]. congruence.
      * rewrite py_sorted_stable. apply List.filter_ext. intros s.
        now destruct (sort_key_unknown s) as [_ H2].
  - apply (StronglySorted_filter_impl (key_le sort_key));
      [|apply py_sorted_sorted].
    intros a b Ha Hb Hab. unfold key_le in Hab.
    destruct (sort_key_spec a) as [(i & Hi & Hka & _)|(_ & _ & Hf)];
      [|congruence].
    destruct (sort_key_spec b) as [(j & Hj & Hkb & _)|(_ & _ & Hf)];
      [|congruence].
    exists i, j. repeat split; [exact Hi|exact Hj|lia].
  - intros s. rewrite List.filter_In, in_priority_In, py_sorted_In. tauto.
Qed.

Lemma sort_missing_skills_priority_then_input_order_witness :
  sort_key (str "sql") = 12%Z
  /\ sort_key (str "rust") = 121%Z
  /\ StronglySorted priority_order
       (List.filter in_priority
          (sort_missing_skills
             [str " Rust"; str "SQL "; str "go"; str "Git"]))
  /\ sort_missing_skills [str " Rust"; str "SQL "; str "go"; str "Git"]
     = [str "git"; str "sql"; str "rust"; str "go"].
Proof.
  destruct (sort_missing_skills_priority_then_input_order
              [str " Rust"; str "SQL "; str "go"; str "Git"])
    as (_ & Hkey & _ & Hsplit & Hord & _).
  split; [|split; [|split]].
  - apply (proj1 (Hkey (str "sql")) 12%nat). reflexivity.
  - apply (proj2 (Hkey (str "rust"))). vm_compute.
    intros H. intuition discriminate.
  - exact Hord.
  - rewrite Hsplit. vm_compute; reflexivity.
Defined.


Lemma list_pair_ind {A} (P : list A -> Prop) :
  P [] -> (forall a, P [a]) -> (forall a b l, P l -> P (a :: b :: l)) ->
  forall l, P l.
Proof.
  intros H0 H1 H2 l.
  assert (H : P l /\ forall a, P (a :: l)).
  { induction l as [|b l [IHl IHc]]; split; auto. }
  apply H.
Qed.

Lemma weeks_loop_spec (ordered : list text) :
  forall week_num,
    concat (List.map skills (weeks_loop week_num ordered)) = ordered
    /\ length (weeks_loop week_num ordered) = Nat.div2 (S (length ordered))
    /\ forall i wk,
         weeks_loop week_num ordered !! i = Some wk ->
         week wk = (week_num + Z.of_nat i)%Z
         /\ skills wk = take 2 (drop (2 * i) ordered)
         /\ (1 <= length (skills wk) <= 2)%nat
         /\ List.map resource_for (skills wk) = suggested_resources wk
         /\ goal wk = str "Get comfortable with: "
                      ++ join (str ", ") (skills wk).
Proof.
  induction ordered as [|a|a b rest IH] using list_pair_ind; intros k.
  - split; [reflexivity|]. split; [reflexivity|].
    intros i wk H. destruct i; discriminate H.
  - split; [reflexivity|]. split; [reflexivity|].
    intros i wk H. destruct i as [|i]; [|destruct i; discriminate H].
    injection H as <-. simpl. repeat split; lia.
  - destruct (IH (k + 1)%Z) as (Hc & Hl & Hw).
    cbn [weeks_loop List.map concat length]. split; [|split].
    + cbn [make_week skills]. simpl. now rewrite Hc.
    + rewrite Hl. reflexivity.
    + intros [|i] wk H.
      * injection H as <-. simpl. repeat split; lia.
      * cbn [lookup list_lookup] in H. apply Hw in H as (H1 & H2 & H3 & H4).
        replace (2 * S i)%nat with (S (S (2 * i))) by lia.
        cbn [drop]. repeat split; try tauto; lia.
Qed.

Lemma build_rule_based_learning_path_concat (ms : list text) :
  concat (List.map skills (build_rule_based_learning_path ms))
  = sort_missing_skills ms.
Proof.
  unfold build_rule_based_learning_path. destruct ms as [|m ms].
  - reflexivity.
  - apply weeks_loop_spec.
Qed.

(** X3: the plan that [build_rule_based_learning_path] returns lists the
    skills in the order of [sort_missing_skills], two per week and one in
    the last week when their number is odd; the weeks are numbered from 1;
    every week has one resource per skill. *)
Theorem build_rule_based_learning_path_covers (ms : list text) :
  concat (List.map skills (build_rule_based_learning_path ms))
    = sort_missing_skills ms
  /\ length (build_rule_based_learning_path ms) = Nat.div2 (S (length ms))
  /\ forall i wk,
       build_rule_based_learning_path ms !! i = Some wk ->
       week wk = (1 + Z.of_nat i)%Z
       /\ skills wk = take 2 (drop (2 * i) (sort_missing_skills ms))
       /\ (1 <= length (skills wk) <= 2)%nat
       /\ List.map resource_for (skills wk) = suggested_resources wk
       /\ goal wk = str "Get comfortable with: "
                    ++ join (str ", ") (skills wk).
Proof.
  assert (Hlen : length (sort_missing_skills ms) = length ms).
  { unfold sort_missing_skills.
    rewrite (Permutation_length (py_sorted_perm sort_key _)).
    apply List.length_map. }
  unfold build_rule_based_learning_path. destruct ms as [|m ms].
  - split; [reflexivity|]. split; [reflexivity|].
    intros i wk H. destruct i; discriminate H.
  - destruct (weeks_loop_spec (sort_missing_skills (m :: ms)) 1)
      as (Hc & Hl & Hw).
    split; [exact Hc|]. split; [now rewrite Hl, Hlen|exact Hw].
Qed.

(** *** The order of strings *)

Lemma text_leb_refl (a : text) : text_leb a a = true.
Proof.
  induction a as [|x a IH]; simpl; [reflexivity|].
  rewrite N.eqb_refl, IH. apply orb_true_r.
Qed.

Lemma text_leb_total (a b : text) : text_leb a b = true \/ text_leb b a = true.
Proof.
  revert b. induction a as [|x a IH]; intros [|y b]; simpl; auto.
  destruct (N.ltb_spec x y), (N.ltb_spec y x), (N.eqb_spec x y),
    (N.eqb_spec y x); simpl; auto; lia.
Qed.

Lemma text_leb_antisym (a b : text) :
  text_leb a b = true -> text_leb b a = true -> a = b.
Proof.
  revert b. induction a as [|x a IH]; intros [|y b]; simpl;
    try discriminate; [reflexivity|].
  destruct (N.ltb_spec x y), (N.ltb_spec y x), (N.eqb_spec x y),
    (N.eqb_spec y x); simpl; try discriminate; try lia.
  intros H1 H2. subst. f_equal. now apply IH.
Qed.

Lemma text_leb_trans (a b c : text) :
  text_leb a b = true -> text_leb b c = true -> text_leb a c = true.
Proof.
  revert b c. induction a as [|x a IH]; intros [|y b] [|z c]; simpl;
    try discriminate; try reflexivity.
  destruct (N.ltb_spec x y), (N.ltb_spec y z), (N.ltb_spec x z),
    (N.eqb_spec x y), (N.eqb_spec y z), (N.eqb_spec x z);
    simpl; try discriminate; try reflexivity; try lia.
  apply IH.
Qed.

Lemma insert_text_perm (x : text) (l : list text) :
  Permutation (insert_text x l) (x :: l).
Proof.
  induction l as [|y l IH]; simpl; [reflexivity|].
  destruct (text_leb x y); [reflexivity|].
  rewrite IH. apply perm_swap.
Qed.

Lemma sorted_text_perm (l : list text) : Permutation (sorted_text l) l.
Proof.
  induction l as [|x l IH]; simpl; [reflexivity|].
  rewrite insert_text_perm. now constructor.
Qed.

Lemma insert_text_sorted (x : text) (l : list text) :
  StronglySorted text_le l -> StronglySorted text_le (insert_text x l).
Proof.
  induction 1 as [|y l Hs IH Hy]; simpl.
  - repeat constructor.
  - destruct (text_leb x y) eqn:E.
    + constructor; [now constructor|].
      constructor; [exact E|].
      eapply List.Forall_impl; [|exact Hy].
      intros z Hz. now apply (text_leb_trans x y z).
    + constructor; [exact IH|].
      rewrite List.Forall_forall. intros z Hz.
      apply (Permutation_in _ (insert_text_perm x l)) in Hz.
      destruct Hz as [<-|Hz].
      * destruct (text_leb_total x y) as [H|H]; [congruence|exact H].
      * rewrite List.Forall_forall in Hy. now apply Hy.
Qed.

Lemma sorted_text_sorted (l : list text) :
  StronglySorted text_le (sorted_text l).
Proof.
  induction l as [|x l IH]; simpl; [constructor|].
  now apply insert_text_sorted.
Qed.

(** The sorted list depends on the elements only, not on their order. *)
Lemma sorted_text_unique (l1 l2 : list text) :
  Permutation l1 l2 -> sorted_text l1 = sorted_text l2.
Proof.
  intros H.
  apply (StronglySorted_unique_strong text_le).
  - intros x y _ _. apply text_leb_antisym.
  - apply sorted_text_sorted.
  - apply sorted_text_sorted.
  - now rewrite !sorted_text_perm.
Qed.

Lemma sorted_set_In (w : world) (X : gset text) (s : text) :
  In s (sorted_text (set_order w X)) <-> s ∈ X.
Proof.
  rewrite <- set_order_In. split; apply Permutation_in;
    [|symmetry]; apply sorted_text_perm.
Qed.

Lemma sorted_set_independent (w w' : world) (X : gset text) :
  sorted_text (set_order w X) = sorted_text (set_order w' X).
Proof.
  apply sorted_text_unique.
  now rewrite (set_order_perm w X), (set_order_perm w' X).
Qed.

Lemma normalized_In (l : list text) (s : text) :
  s ∈ (list_to_set (List.map normalize_skill l) : gset text)
  <-> In s (List.map normalize_skill l).
Proof. now rewrite elem_of_list_to_set, list_elem_of_In. Qed.

(** X4: the missing skills that [generate_learning_path] reports are the
    normalised target skills that are not normalised candidate skills, each
    once, in ascending order; the three skill lists do not depend on the
    order in which the sets are iterated; without the language model the
    plan lists exactly the missing skills, and there is no plan when
    nothing is missing. *)
Theorem generate_learning_path_missing (w : world)
    (enrich : list week_plan -> list text -> list text -> option text ->
              list week_plan)
    (cs ts : list text) (use_llm : bool) (job_title : option text) :
  let r := generate_learning_path w enrich cs ts use_llm job_title in
  (forall s, In s (missing_skills r)
             <-> In s (List.map normalize_skill ts)
                 /\ ~ In s (List.map normalize_skill cs))
  /\ StronglySorted text_le (missing_skills r)
  /\ List.NoDup (missing_skills r)
  /\ (forall w',
        let r' := generate_learning_path w' enrich cs ts use_llm job_title in
        missing_skills r' = missing_skills r
        /\ candidate_skills r' = candidate_skills r
        /\ target_skills r' = target_skills r)
  /\ (use_llm = false ->
      Permutation (concat (List.map skills (plan r))) (missing_skills r))
  /\ (missing_skills r = [] -> plan r = []).
Proof.
  cbn zeta. unfold generate_learning_path. cbn [missing_skills plan
    candidate_skills target_skills].
  set (cand := list_to_set (List.map normalize_skill cs) : gset text).
  set (target := list_to_set (List.map normalize_skill ts) : gset text).
  assert (Hin : forall s, In s (sorted_text (set_order w (target ∖ cand)))
                          <-> In s (List.map normalize_skill ts)
                              /\ ~ In s (List.map normalize_skill cs)).
  { intros s. rewrite sorted_set_In, elem_of_difference.
    unfold target, cand. now rewrite !normalized_In. }
  split; [exact Hin|]. split; [apply sorted_text_sorted|].
  split.
  { eapply Permutation_NoDup; [symmetry; apply sorted_text_perm|].
    apply set_order_NoDup. }
  split.
  { intros w'. repeat split; apply sorted_set_independent. }
  split.
  - intros ->. cbn [andb].
    rewrite build_rule_based_learning_path_concat.
    rewrite sort_missing_skills_perm.
    rewrite (List.map_ext_in normalize_skill (fun s => s)).
    + now rewrite List.map_id.
    + intros s Hs. apply Hin in Hs as [Hs _].
      apply List.in_map_iff in Hs as (x & <- & _).
      apply normalize_skill_fixed.
  - intros ->. cbn [build_rule_based_learning_path length Nat.eqb negb].
    now rewrite andb_false_r.
Qed.

End LearningPathFacts.

(** ** Pages of a PDF *)

Lemma page_chunks_until_raise (pages rest : list page) :
  page_chunks (pages ++ PageRaises :: rest) = page_chunks pages.
Proof.
  induction pages as [|[[[|c t]|]|] pages IH]; simpl; try reflexivity;
    try exact IH. now rewrite IH.
Qed.

(** X5: when a page of a PDF raises, [extract_text_from_pdf] returns the
    text of the pages before it, as if the document ended there: the pages
    after it are lost, those before are kept.  When the document cannot be
    opened the text is empty. *)
Theorem extract_text_from_pdf_keeps_pages_before_failure (w : world)
    (path : text) (pages rest : list page) :
  pdfplumber_open w path = Some (pages ++ PageRaises :: rest) ->
  extract_text_from_pdf w path
  = join (str (String "010" "")) (page_chunks pages)
  /\ forall w', pdfplumber_open w' path = Some pages ->
                extract_text_from_pdf w' path = extract_text_from_pdf w path.
Proof.
  intros H. unfold extract_text_from_pdf. rewrite H.
  rewrite page_chunks_until_raise. split; [reflexivity|].
  intros w' H'. now rewrite H'.
Qed.

Lemma extract_text_from_pdf_keeps_pages_before_failure_witness :
  extract_text_from_pdf world_pdf (str "cv.PDF")
  = join (str (String "010" ""))
      (page_chunks [PageText (Some (str "page one")); PageText None])
  /\ forall w',
       pdfplumber_open w' (str "cv.PDF")
       = Some [PageText (Some (str "page one")); PageText None] ->
       extract_text_from_pdf w' (str "cv.PDF")
       = extract_text_from_pdf world_pdf (str "cv.PDF").
Proof.
  apply (extract_text_from_pdf_keeps_pages_before_failure world_pdf
           (str "cv.PDF")
           [PageText (Some (str "page one")); PageText None]
           [PageText (Some (str "page four"))]).
  reflexivity.
Defined.

(** ** The suffix of a path *)

Lemma split_on_lacks (sep : N) (s cur : text) :
  lacks sep cur -> Forall (lacks sep) (split_on sep cur s).
Proof.
  revert cur. induction s as [|c s IH]; intros cur Hcur; simpl.
  - constructor; [|constructor]. now apply List.Forall_rev.
  - destruct (N.eqb_spec c sep) as [->|Hne].
    + constructor; [now apply List.Forall_rev|]. apply IH. constructor.
    + apply IH. now constructor.
Qed.

Lemma last_filter_In {A} (f : A -> bool) (l : list A) (d x : A) :
  List.last (List.filter f l) d = x ->
  (List.filter f l = [] /\ x = d) \/ (In x l /\ f x = true).
Proof.
  intros <-. destruct (List.filter f l) as [|y l'] eqn:E; [now left|].
  right. apply List.filter_In. rewrite E.
  assert (Hne : y :: l' <> []) by discriminate.
  rewrite (List.app_removelast_last d Hne) at 2.
  apply List.in_or_app. right. now left.
Qed.

(** The name of a path has no slash, and is not "." when it is not
    empty. *)
Lemma path_name_component (p : text) :
  lacks (ch "/") (path_name p)
  /\ (path_name p <> [] -> path_name p <> str ".").
Proof.
  unfold path_name.
  destruct (last_filter_In
              (fun part => negb (text_eqb part [])
                           && negb (text_eqb part (str ".")))
              (split_on (ch "/") [] p) [] _ eq_refl)
    as [[_ ->]|[Hin Hf]].
  - split; [constructor|congruence].
  - split.
    + pose proof (split_on_lacks (ch "/") p [] ltac:(constructor)) as H.
      rewrite List.Forall_forall in H. now apply H.
    + intros _. apply andb_true_iff in Hf as [_ Hf].
      apply negb_true_iff, bool_decide_eq_false in Hf. exact Hf.
Qed.

Lemma rfind_dot_spec (s : text) :
  forall i acc k,
    rfind_dot s i acc = Some k ->
    (acc = Some k /\ lacks (ch ".") s)
    \/ exists pre post,
         s = pre ++ ch "." :: post /\ k = (i + length pre)%nat
         /\ lacks (ch ".") post.
Proof.
  induction s as [|c s IH]; intros i acc k; cbn [rfind_dot].
  - intros ->. left. split; [reflexivity|constructor].
  - destruct (N.eqb_spec c (ch ".")) as [->|Hne]; intros H;
      apply IH in H as [[Hacc Hl]|(pre & post & -> & -> & Hl)].
    + right. injection Hacc as <-. exists [], s.
      repeat split; [simpl; lia|exact Hl].
    + right. exists (ch "." :: pre), post.
      repeat split; [simpl; lia|exact Hl].
    + left. split; [exact Hacc|now constructor].
    + right. exists (c :: pre), post. repeat split; [simpl; lia|exact Hl].
Qed.

(** The suffix of a path is empty, or it is a dot followed by at least one
    character, none of them a dot or a slash, at the end of a name that has
    at least one character before that dot. *)
Lemma path_suffix_shape (p : text) :
  path_suffix p = []
  \/ exists stem ext,
       path_name p = stem ++ path_suffix p
       /\ path_suffix p = ch "." :: ext
       /\ stem <> [] /\ ext <> []
       /\ lacks (ch ".") ext /\ lacks (ch "/") ext.
Proof.
  unfold path_suffix.
  destruct (rfind_dot (path_name p) 0 None) as [i|] eqn:E; [|now left].
  destruct (Nat.ltb_spec 0 i) as [Hi|]; [|now left].
  destruct (Nat.ltb_spec i (length (path_name p) - 1)) as [Hl|];
    [|now left].
  right. cbn [andb].
  apply rfind_dot_spec in E as [[E _]|(pre & post & Hs & -> & Hpost)];
    [discriminate|].
  destruct (path_name_component p) as [Hslash _].
  rewrite Hs in *. rewrite Nat.add_0_l in *.
  rewrite drop_app_length.
  exists pre, post. repeat split.
  - destruct pre; [simpl in Hi; lia|discriminate].
  - destruct post; [|discriminate].
    rewrite length_app in Hl. simpl in Hl. lia.
  - exact Hpost.
  - unfold lacks in *. rewrite List.Forall_app in Hslash.
    destruct Hslash as [_ Hslash]. now inversion Hslash.
Qed.

(** ** The e-mail address *)

Lemma re_match_sound (r : regex) (s : text) (mo : match_obj) :
  group_free r = true ->
  re_match r s = Some mo ->
  lang r (m_whole mo) /\ m_groups mo = [] /\ s = m_whole mo ++ m_rest mo.
Proof.
  intros G H. unfold re_match in H.
  apply rmatch_sound in H as (m & rest & caps' & -> & L & H & Hc).
  rewrite (Hc G) in H. rewrite take_matched in H.
  injection H as <-. simpl. now repeat split.
Qed.

Lemma email_classes_lack_at (c : N) :
  email_local_cls c = true \/ email_host_cls c = true
  \/ email_tail_cls c = true ->
  c <> ch "@".
Proof.
  intros H ->. vm_compute in H. intuition discriminate.
Qed.

Lemma Forall_lacks_at (P : N -> bool) (s : text) :
  (forall c, P c = true -> c <> ch "@") ->
  Forall (fun c => P c = true) s -> lacks (ch "@") s.
Proof.
  intros HP H. eapply List.Forall_impl; [|exact H]. exact HP.
Qed.

(** X6: an e-mail value returned by [extract_contact_info] is a substring of
    the text made of a local part, an at sign, a host label and a dot
    followed by a tail, all three non-empty and of the characters their
    classes admit; the value has a single at sign, and the host label has
    no dot. *)
Theorem extract_contact_info_email_shape (t e : text) :
  contact_email (extract_contact_info t) = Some e ->
  (exists pre post, t = pre ++ e ++ post)
  /\ exists local host tail,
       e = local ++ ch "@" :: host ++ ch "." :: tail
       /\ local <> [] /\ host <> [] /\ tail <> []
       /\ Forall (fun c => email_local_cls c = true) local
       /\ Forall (fun c => email_host_cls c = true) host
       /\ Forall (fun c => email_tail_cls c = true) tail
       /\ lacks (ch "@") local /\ lacks (ch "@") host
       /\ lacks (ch "@") tail /\ lacks (ch ".") host.
Proof.
  unfold extract_contact_info, findall. simpl. intros H.
  apply findall_skip_head in H as (pre & s' & mo & -> & Hm & ->).
  apply re_match_sound in Hm as (L & Hg & ->); [|reflexivity].
  unfold findall_item. rewrite Hg.
  split; [now exists pre, (m_rest mo)|].
  destruct L as (local & m2 & -> & (Hl1 & Hl2)
                 & (a & m3 & -> & (c1 & -> & Hc1)
                 & (host & m4 & -> & (Hh1 & Hh2)
                 & (d & tail & -> & (c2 & -> & Hc2) & (Ht1 & Ht2))))).
  apply N.eqb_eq in Hc1, Hc2. subst c1 c2.
  exists local, host, tail. repeat split.
  - destruct local; [simpl in Hl1; lia|discriminate].
  - destruct host; [simpl in Hh1; lia|discriminate].
  - destruct tail; [simpl in Ht1; lia|discriminate].
  - exact Hl2.
  - exact Hh2.
  - exact Ht2.
  - apply (Forall_lacks_at email_local_cls); [|exact Hl2].
    intros c Hc. apply email_classes_lack_at. tauto.
  - apply (Forall_lacks_at email_host_cls); [|exact Hh2].
    intros c Hc. apply email_classes_lack_at. tauto.
  - apply (Forall_lacks_at email_tail_cls); [|exact Ht2].
    intros c Hc. apply email_classes_lack_at. tauto.
  - eapply List.Forall_impl; [|exact Hh2].
    intros c Hc ->. vm_compute in Hc. discriminate.
Qed.

Lemma extract_contact_info_email_shape_witness :
  (exists pre post,
      str "Email: john.doe@example.com, phone on request"
      = pre ++ str "john.doe@example.com" ++ post)
  /\ exists local host tail,
       str "john.doe@example.com"
       = local ++ ch "@" :: host ++ ch "." :: tail
       /\ local <> [] /\ host <> [] /\ tail <> []
       /\ Forall (fun c => email_local_cls c = true) local
       /\ Forall (fun c => email_host_cls c = true) host
       /\ Forall (fun c => email_tail_cls c = true) tail
       /\ lacks (ch "@") local /\ lacks (ch "@") host
       /\ lacks (ch "@") tail /\ lacks (ch ".") host.
Proof.
  apply (extract_contact_info_email_shape
           (str "Email: john.doe@example.com, phone on request")
           (str "john.doe@example.com")).
  vm_compute; reflexivity.
Defined.

(** ** Years of experience *)

Lemma int_acc_nonneg (s : text) :
  forall acc n, (0 <= acc)%Z -> int_acc acc s = Some n -> (0 <= n)%Z.
Proof.
  induction s as [|c s IH]; intros acc n Hacc; simpl.
  - intros H. injection H as <-. exact Hacc.
  - destruct (is_digit c); [|discriminate]. apply IH. lia.
Qed.

Lemma py_int_nonneg (s : text) (n : Z) : py_int s = Some n -> (0 <= n)%Z.
Proof.
  unfold py_int. destruct s; [discriminate|].
  destruct (_ <? _)%Z; [discriminate|].
  apply int_acc_nonneg. lia.
Qed.

Lemma years_span_nonneg (t : text) (n : Z) :
  years_span t = Some n -> (0 <= n)%Z.
Proof.
  unfold years_span.
  destruct (findall YEAR_RE t) as [|y l]; [discriminate|].
  destruct (Nat.leb_spec 2 (length (distinct_years (y :: l)))) as [Hlen|];
    [|discriminate].
  intros H. injection H as <-.
  destruct (distinct_years_spec (y :: l)) as (Hs & _ & _).
  assert (Hne : distinct_years (y :: l) <> []).
  { intros E. rewrite E in Hlen. simpl in Hlen. lia. }
  pose proof (sorted_hd_last _ Hs _ (last_In _ 0%Z Hne)). lia.
Qed.

(** X7: a value returned by [extract_experience_years] is never negative. *)
Theorem extract_experience_years_nonneg (t : text) (n : Z) :
  extract_experience_years t = Some n -> (0 <= n)%Z.
Proof.
  unfold extract_experience_years, explicit_years.
  destruct (search YEARS_EXP_RE (lower t)) as [m|].
  - destruct (py_int (nth 0 (m_groups m) [])) as [k|] eqn:E.
    + intros H. injection H as <-. now apply py_int_nonneg in E.
    + apply years_span_nonneg.
  - apply years_span_nonneg.
Qed.

Lemma extract_experience_years_nonneg_witness :
  (0 <= 12)%Z.
Proof.
  apply (extract_experience_years_nonneg
           (str "Over 12+ Years in backend teams, since 2009") 12%Z).
  vm_compute; reflexivity.
Defined.

(** ** Letter case *)

Lemma lower_char_digit (c : N) : is_digit c = true -> lower_char c = c.
Proof.
  intros H. unfold lower_char. destruct (is_upper c) eqn:E; [|reflexivity].
  apply is_upper_range in E. unfold is_digit, in_range in H.
  apply andb_true_iff in H as [H1 H2]. apply N.leb_le in H1, H2. lia.
Qed.

Lemma is_digit_lower_char (c : N) : is_digit (lower_char c) = is_digit c.
Proof.
  unfold lower_char. destruct (is_upper c) eqn:E; [|reflexivity].
  apply is_upper_range in E. unfold is_digit, in_range.
  destruct (N.leb_spec 48 (c + 32)), (N.leb_spec (c + 32) 57),
    (N.leb_spec 48 c), (N.leb_spec c 57); simpl; try reflexivity; lia.
Qed.

Lemma lower_char_eqb_digit (c d : N) :
  is_digit d = true -> (lower_char c =? d) = (c =? d).
Proof.
  intros Hd. unfold lower_char. destruct (is_upper c) eqn:E; [|reflexivity].
  apply is_upper_range in E. unfold is_digit, in_range in Hd.
  apply andb_true_iff in Hd as [H1 H2]. apply N.leb_le in H1, H2.
  destruct (N.eqb_spec (c + 32) d), (N.eqb_spec c d); try reflexivity; lia.
Qed.

Lemma year_at_lower (s : text) : year_at (lower s) = year_at s.
Proof.
  destruct s as [|a [|b [|c [|d r]]]]; try reflexivity.
  unfold year_at. cbn [lower List.map].
  now rewrite !lower_char_eqb_digit, !is_digit_lower_char by reflexivity.
Qed.

Lemma year_at_digits (s : text) :
  year_at s = true -> Forall (fun c => is_digit c = true) (take 4 s).
Proof.
  intros H. pose proof H as H'.
  apply year_at_cons in H' as (a & b & c & d & r & ->).
  unfold year_at in H.
  apply andb_true_iff in H as [H Hd]. apply andb_true_iff in H as [H Hc].
  assert (Hab : is_digit a = true /\ is_digit b = true).
  { apply orb_true_iff in H as [H|H]; apply andb_true_iff in H as [Ha Hb];
      apply N.eqb_eq in Ha as ->; apply N.eqb_eq in Hb as ->; now split. }
  cbn [take]. repeat constructor; tauto.
Qed.

Lemma lower_digits (s : text) :
  Forall (fun c => is_digit c = true) s -> lower s = s.
Proof.
  induction 1 as [|c s Hc _ IH]; [reflexivity|].
  cbn [lower List.map]. rewrite (lower_char_digit c Hc). f_equal. exact IH.
Qed.

Lemma take_lower (n : nat) (s : text) : take n (lower s) = lower (take n s).
Proof. unfold lower. symmetry. apply fmap_take. Qed.

Lemma findall_year_lower (s : text) :
  forall skip,
    findall_skip YEAR_RE skip (lower s) = findall_skip YEAR_RE skip s.
Proof.
  induction s as [|c s IH]; intros skip; [reflexivity|].
  destruct skip as [|n].
  - change (lower (c :: s)) with (lower_char c :: lower s).
    rewrite !findall_year_cons.
    change (lower_char c :: lower s) with (lower (c :: s)).
    rewrite year_at_lower. destruct (year_at (c :: s)) eqn:E.
    + rewrite take_lower, (lower_digits _ (year_at_digits _ E)).
      f_equal. apply IH.
    + apply IH.
  - cbn [lower List.map findall_skip]. apply IH.
Qed.

(** X8: [extract_experience_years] and [extract_education] do not depend on
    the case of the letters: a text and its lower-cased form give the same
    results. *)
Theorem experience_and_education_ignore_case (t : text) :
  extract_experience_years (lower t) = extract_experience_years t
  /\ extract_education (lower t) = extract_education t.
Proof.
  split.
  - unfold extract_experience_years, explicit_years, years_span, findall.
    now rewrite lower_idem, findall_year_lower.
  - unfold extract_education. now rewrite lower_idem.
Qed.

(** ** The lazy globals *)

(** X9: once the vocabulary and the pipeline have been loaded, later calls
    return the same vocabulary and the same pipeline and leave the globals
    as they are, whatever the skills file and the installed model have
    become. *)
Theorem lazy_globals_load_once (w : world) (st st1 st2 : state)
    (v : gset text) (nlp : pipeline) :
  _load_skills_master w st = (Ok v, st1) ->
  _get_nlp w st1 = (Ok nlp, st2) ->
  forall w',
    _load_skills_master w' st2 = (Ok v, st2)
    /\ _get_nlp w' st2 = (Ok nlp, st2).
Proof.
  intros Hl Hn w'.
  apply load_skills_master_spec in Hl as (Hv & _ & _).
  apply get_nlp_spec in Hn as (Hn & Hs & Hc).
  split; [|apply Hc].
  apply load_skills_master_cached. congruence.
Qed.

Lemma lazy_globals_load_once_witness :
  _load_skills_master world_blank_skill
    (State (Some (list_to_set fallback_skills)) (Some quiet_pipeline))
  = (Ok (list_to_set fallback_skills),
     State (Some (list_to_set fallback_skills)) (Some quiet_pipeline))
  /\ _get_nlp world_blank_skill
       (State (Some (list_to_set fallback_skills)) (Some quiet_pipeline))
     = (Ok quiet_pipeline,
        State (Some (list_to_set fallback_skills)) (Some quiet_pipeline)).
Proof.
  apply (lazy_globals_load_once world0 initial_state
           (State (Some (list_to_set fallback_skills)) None)
           (State (Some (list_to_set fallback_skills)) (Some quiet_pipeline))
           (list_to_set fallback_skills) quiet_pipeline);
    reflexivity.
Defined.

(** ** The profile as a function of the text *)

Lemma extract_skills_eq (w : world) (t : text) (top_k : Z)
    (scorer : text -> text -> Q) (st st1 st2 : state) (v : gset text)
    (nlp : pipeline) :
  _load_skills_master w st = (Ok v, st1) ->
  _get_nlp w st1 = (Ok nlp, st2) ->
  noun_chunks_available (take (N.to_nat 100000) t)
    (nlp (take (N.to_nat 100000) t)) = true ->
  extract_skills w t top_k scorer st
  = (Ok (py_sorted (find (lower t))
           (set_order w (found_skills w v nlp t scorer))), st2).
Proof.
  intros Hl Hn Ha. unfold extract_skills, bind, ret.
  now rewrite Hl, Hn, Ha.
Qed.

Lemma parse_resume_eq (w : world) (path t : text) (st sa sb : state)
    (nlp : pipeline) (v : gset text) :
  extract_text w path = Ok t ->
  _get_nlp w st = (Ok nlp, sa) ->
  _load_skills_master w sa = (Ok v, sb) ->
  noun_chunks_available (take (N.to_nat 100000) t)
    (nlp (take (N.to_nat 100000) t)) = true ->
  parse_resume w path st = (Ok (profile_of w nlp v t), sb).
Proof.
  intros Ht Hn Hl Ha. unfold parse_resume, bind, ret. rewrite Ht.
  rewrite (extract_name_eq w t st sa nlp Hn).
  destruct (get_nlp_spec w st sa nlp Hn) as (Hnlp & _ & _).
  destruct (load_skills_master_spec w sa sb v Hl) as (_ & Hkeep & _).
  rewrite (extract_skills_eq w t 60 _ sa sb sb v nlp Hl).
  - reflexivity.
  - apply get_nlp_cached. congruence.
  - exact Ha.
Qed.

Lemma parse_resume_ok_inv (w : world) (path : text) (st st1 : state)
    (pr : profile) :
  parse_resume w path st = (Ok pr, st1) ->
  exists t nlp v sa,
    extract_text w path = Ok t
    /\ _get_nlp w st = (Ok nlp, sa)
    /\ _load_skills_master w sa = (Ok v, st1)
    /\ noun_chunks_available (take (N.to_nat 100000) t)
         (nlp (take (N.to_nat 100000) t)) = true
    /\ pr = profile_of w nlp v t.
Proof.
  intros H.
  destruct (extract_text w path) as [t|e] eqn:Et.
  - destruct (get_nlp_ok w st) as (nlp & sa & Hn & _).
    destruct (_load_skills_master w sa) as [[v|e] sb] eqn:Hl.
    + destruct (noun_chunks_available (take (N.to_nat 100000) t)
                  (nlp (take (N.to_nat 100000) t))) eqn:Ha.
      * rewrite (parse_resume_eq w path t st sa sb nlp v Et Hn Hl Ha) in H.
        injection H as <- <-. now exists t, nlp, v, sa.
      * exfalso.
        rewrite (parse_resume_no_parse w path t st sa sb nlp v Et Hn Hl Ha)
          in H.
        discriminate.
    + exfalso. unfold parse_resume, bind, ret in H. rewrite Et in H.
      rewrite (extract_name_eq w t st sa nlp Hn) in H.
      unfold extract_skills, bind in H. rewrite Hl in H. discriminate.
  - unfold parse_resume in H. rewrite Et in H. discriminate.
Qed.

(** X10: parsing the same file again gives the same profile and leaves the
    globals as the first call left them. *)
Theorem parse_resume_idempotent (w : world) (path : text) (st st1 : state)
    (pr : profile) :
  parse_resume w path st = (Ok pr, st1) ->
  parse_resume w path st1 = (Ok pr, st1).
Proof.
  intros H.
  apply parse_resume_ok_inv
    in H as (t & nlp & v & sa & Ht & Hn & Hl & Ha & ->).
  destruct (get_nlp_spec w st sa nlp Hn) as (Hnlp & _ & _).
  destruct (load_skills_master_spec w sa st1 v Hl) as (Hv & Hkeep & _).
  apply (parse_resume_eq w path t st1 st1 st1 nlp v Ht).
  - apply get_nlp_cached. congruence.
  - now apply load_skills_master_cached.
  - exact Ha.
Qed.

Lemma parse_resume_idempotent_witness :
  parse_resume world0 (str "notes.txt")
    (snd (parse_resume world0 (str "notes.txt") initial_state))
  = (Ok (profile_of world0 quiet_pipeline (list_to_set fallback_skills)
           (str "ab")),
     snd (parse_resume world0 (str "notes.txt") initial_state)).
Proof.
  apply (parse_resume_idempotent world0 (str "notes.txt") initial_state).
  vm_compute; reflexivity.
Defined.

(** ** The name *)

Lemma strip_last (s m : text) (c : N) :
  strip s = m ++ [c] -> is_space c = false.
Proof.
  unfold strip, rstrip. intros H.
  apply (f_equal (@rev N)) in H.
  rewrite rev_involutive, rev_app_distr in H. simpl in H.
  destruct (lstrip_spec (rev (lstrip s))) as (_ & _ & _ & Hhd).
  now apply (Hhd c (rev m)).
Qed.

Lemma first_person_first (es : list span) (n : text) :
  first_person es = Some n ->
  exists before e after,
    es = before ++ e :: after
    /\ Forall (fun e' => label_ e' <> str "PERSON") before
    /\ label_ e = str "PERSON" /\ n = strip (span_text e).
Proof.
  induction es as [|e es IH]; simpl; [discriminate|].
  destruct (text_eqb (label_ e) (str "PERSON")) eqn:E.
  - intros H. injection H as <-. exists [], e, es.
    apply bool_decide_eq_true in E.
    repeat split; [constructor|exact E].
  - intros H. apply IH in H as (before & e' & after & -> & Hb & Hl & Hn).
    apply bool_decide_eq_false in E.
    exists (e :: before), e', after.
    repeat split; [constructor; assumption|exact Hl|exact Hn].
Qed.

Lemma first_person_none (es : list span) :
  first_person es = None ->
  Forall (fun e => label_ e <> str "PERSON") es.
Proof.
  induction es as [|e es IH]; simpl; [constructor|].
  destruct (text_eqb (label_ e) (str "PERSON")) eqn:E; [discriminate|].
  apply bool_decide_eq_false in E. intros H. constructor; auto.
Qed.

Lemma name_match_shape (s : text) :
  is_Some (re_match NAME_RE s) ->
  exists m rest,
    s = m ++ rest /\ m <> [] /\ Forall (fun c => name_cls c = true) m
    /\ (rest = [] \/ rest = [10]).
Proof.
  intros [mo H]. unfold re_match, NAME_RE in H. cbn [rmatch] in H.
  apply rep_greedy_sound in H as (m & rest & -> & Hlen & Hall & H).
  exists m, rest. repeat split.
  - destruct m; [simpl in Hlen; lia|discriminate].
  - exact Hall.
  - destruct rest as [|c [|d rest]]; [now left| |discriminate].
    destruct (N.eqb_spec c 10) as [->|]; [now right|discriminate].
Qed.

(** X11: a name returned by [extract_name] has no white space at either end.
    It is the trimmed text of the first entity labelled PERSON among the
    entities of the first 2000 characters, or, when no entity has that
    label, the first line of the text that is not blank, trimmed; in the
    second case it consists of letters, spaces, dots, apostrophes and
    hyphens only and has at most four words. *)
Theorem extract_name_shape (w : world) (t : text) (st st' : state)
    (n : text) :
  extract_name w t st = (Ok (Some n), st') ->
  strip n = n
  /\ exists nlp,
       _get_nlp w st = (Ok nlp, st')
       /\ ((exists before e after,
               ents (nlp (take 2000 t)) = before ++ e :: after
               /\ Forall (fun e' => label_ e' <> str "PERSON") before
               /\ label_ e = str "PERSON" /\ n = strip (span_text e))
           \/ (Forall (fun e => label_ e <> str "PERSON")
                 (ents (nlp (take 2000 t)))
               /\ n <> []
               /\ Forall (fun c => name_cls c = true) n
               /\ (length (split_ws [] n) <= 4)%nat
               /\ exists before line after,
                    splitlines t = before ++ line :: after
                    /\ Forall (fun l => strip l = []) before
                    /\ n = strip line)).
Proof.
  intros H. destruct (get_nlp_ok w st) as (nlp & st1 & Hn & _).
  rewrite (extract_name_eq w t st st1 nlp Hn) in H.
  injection H as H <-. unfold name_of in H.
  destruct (first_person (ents (nlp (take 2000 t)))) as [p|] eqn:Ep.
  - injection H as ->.
    apply first_person_first in Ep as (bf & e & af & He & Hb & Hl & ->).
    split; [apply strip_idem|]. exists nlp. split; [exact Hn|].
    left. now exists bf, e, af.
  - assert (Hfirst : forall ls cand rest,
               List.map strip
                 (List.filter (fun l => nonempty (strip l)) ls)
               = cand :: rest ->
               exists before line after,
                 ls = before ++ line :: after
                 /\ Forall (fun l => strip l = []) before
                 /\ cand = strip line /\ cand <> []).
    { induction ls as [|l ls IH]; intros cand rest; simpl; [discriminate|].
      unfold nonempty at 1. destruct (strip l) as [|c s] eqn:El; simpl.
      - intros Hm. apply IH in Hm as (b & line & a & -> & Hb & Hc & Hne).
        exists (l :: b), line, a. repeat split; auto.
      - intros Hm. injection Hm as <- _. exists [], l, ls.
        rewrite El. repeat split; [constructor|discriminate]. }
    destruct (List.map strip
                (List.filter (fun l => nonempty (strip l)) (splitlines t)))
      as [|cand rest] eqn:Ec; [discriminate|].
    apply Hfirst in Ec as (before & line & after & Hs & Hb & -> & Hne).
    destruct (Nat.leb_spec (length (split_ws [] (strip line))) 4)
      as [Hlen|]; [|discriminate].
    cbn [andb] in H.
    destruct (bool_decide (is_Some (re_match NAME_RE (strip line)))) eqn:Em;
      [|discriminate].
    injection H as <-. apply bool_decide_eq_true in Em.
    apply name_match_shape in Em as (m & r & Hm & _ & Hall & Hr).
    assert (Hm' : strip line = m).
    { destruct Hr as [->| ->]; [now rewrite app_nil_r in Hm|].
      apply strip_last in Hm. discriminate. }
    split; [apply strip_idem|]. exists nlp. split; [exact Hn|].
    right. split; [now apply first_person_none|].
    repeat split; auto.
    + now rewrite Hm'.
    + now exists before, line, after.
Qed.

Lemma extract_name_shape_witness :
  strip (str "John Doe") = str "John Doe"
  /\ exists nlp,
       _get_nlp world0 initial_state
       = (Ok nlp, State None (Some quiet_pipeline))
       /\ ((exists before e after,
               ents (nlp (take 2000
                            (str "John Doe" ++ 10 :: str "Engineer")))
               = before ++ e :: after
               /\ Forall (fun e' => label_ e' <> str "PERSON") before
               /\ label_ e = str "PERSON"
               /\ str "John Doe" = strip (span_text e))
           \/ (Forall (fun e => label_ e <> str "PERSON")
                 (ents (nlp (take 2000
                               (str "John Doe" ++ 10 :: str "Engineer"))))
               /\ str "John Doe" <> []
               /\ Forall (fun c => name_cls c = true) (str "John Doe")
               /\ (length (split_ws [] (str "John Doe")) <= 4)%nat
               /\ exists before line after,
                    splitlines (str "John Doe" ++ 10 :: str "Engineer")
                    = before ++ line :: after
                    /\ Forall (fun l => strip l = []) before
                    /\ str "John Doe" = strip line)).
Proof.
  apply (extract_name_shape world0
           (str "John Doe" ++ 10 :: str "Engineer") initial_state).
  vm_compute; reflexivity.
Defined.

(** ** Where a skill comes from *)

Lemma extractOne_from_best (scorer : text -> text -> Q) (q : text)
    (choices : list text) :
  forall i best m s j,
    (forall b bs bi, best = Some (b, bs, bi) -> bs = scorer q b) ->
    extractOne_from scorer q choices i best = Some (m, s, j) ->
    s = scorer q m
    /\ (forall c, In c choices -> (scorer q c <= s)%Q)
    /\ (forall b bs bi, best = Some (b, bs, bi) -> (bs <= s)%Q).
Proof.
  induction choices as [|c rest IH]; intros i best m s j Hinv; simpl.
  - intros ->. split; [now apply (Hinv m s j)|].
    split; [intros c []|]. intros b bs bi H. injection H as _ <- _.
    apply Qle_refl.
  - intros H. apply IH in H as (Hs & Hrest & Hbest).
    + split; [exact Hs|]. destruct best as [[[b bs] bi]|].
      * destruct (Qle_bool (scorer q c) bs) eqn:E.
        { pose proof (Hbest b bs bi eq_refl) as Hb.
          apply Qle_bool_iff in E. split.
          - intros c' [<-|Hc]; [now apply (Qle_trans _ bs)|now apply Hrest].
          - intros b' bs' bi' H'. now injection H' as _ <- _. }
        { pose proof (Hbest c (scorer q c) i eq_refl) as Hc.
          assert (Hlt : (bs < scorer q c)%Q).
          { apply Qnot_le_lt. intros Hle. apply Qle_bool_iff in Hle.
            congruence. }
          split.
          - intros c' [<-|Hc']; [exact Hc|now apply Hrest].
          - intros b' bs' bi' H'. injection H' as _ <- _.
            apply Qlt_le_weak. now apply (Qlt_le_trans _ (scorer q c)). }
      * pose proof (Hbest c (scorer q c) i eq_refl) as Hc. split.
        { intros c' [<-|Hc']; [exact Hc|now apply Hrest]. }
        { intros b bs bi H'. discriminate H'. }
    + intros b bs bi. destruct best as [[[b0 bs0] bi0]|].
      * destruct (Qle_bool (scorer q c) bs0); intros H'.
        { now apply (Hinv b bs bi). }
        { now injection H' as <- <- _. }
      * intros H'. now injection H' as <- <- _.
Qed.

Lemma extractOne_best (scorer : text -> text -> Q) (q : text)
    (choices : list text) (m : text) (s : Q) (j : nat) :
  extractOne scorer q choices = Some (m, s, j) ->
  s = scorer q m /\ forall c, In c choices -> (scorer q c <= s)%Q.
Proof.
  unfold extractOne. intros H.
  apply extractOne_from_best in H as (Hs & Hc & _); [now split|].
  intros b bs bi H'. discriminate H'.
Qed.

Lemma fold_fuzzy_provenance (scorer : text -> text -> Q)
    (choices cands : list text) (found : gset text) (s : text) :
  s ∈ fold_left (fuzzy_step scorer choices) cands found ->
  s ∈ found
  \/ exists cand,
       In cand cands /\ (80 <= scorer cand s)%Q
       /\ forall c, In c choices -> (scorer cand c <= scorer cand s)%Q.
Proof.
  revert found. induction cands as [|cand cands IH]; simpl; intros found H.
  - now left.
  - apply IH in H as [H|(c' & Hin & Hq)].
    + unfold fuzzy_step in H.
      destruct (extractOne scorer cand choices) as [[[m sc] j]|] eqn:E;
        [|now left].
      destruct (Qle_bool 80 sc) eqn:E80; [|now left].
      apply elem_of_union in H as [H|H]; [|now left].
      apply elem_of_singleton in H as ->.
      apply extractOne_best in E as [-> Hbest].
      apply Qle_bool_iff in E80.
      right. exists cand. split; [now left|]. now split.
    + right. exists c'. split; [now right|exact Hq].
Qed.

(** X12: a skill returned by [extract_skills] occurs in the lower-cased
    text, or some candidate phrase scores at least 80 against it and no
    vocabulary term scores higher against that phrase. *)
Theorem extract_skills_provenance (w : world) (t : text) (top_k : Z)
    (scorer : text -> text -> Q) (st st' : state) (out : list text) :
  extract_skills w t top_k scorer st = (Ok out, st') ->
  exists vocab st1 nlp,
    _load_skills_master w st = (Ok vocab, st1)
    /\ _get_nlp w st1 = (Ok nlp, st')
    /\ forall s, In s out ->
         contains s (lower t) = true
         \/ exists cand,
              cand ∈ candidate_phrases (nlp (take (N.to_nat 100000) t))
                       (lower t)
              /\ (80 <= scorer cand s)%Q
              /\ forall c, c ∈ vocab -> (scorer cand c <= scorer cand s)%Q.
Proof.
  intros H.
  apply extract_skills_inv in H as (vocab & st1 & nlp & Hl & Hn & ->).
  exists vocab, st1, nlp. split; [exact Hl|]. split; [exact Hn|].
  intros s Hs. apply extract_skills_In in Hs. unfold found_skills in Hs.
  apply fold_fuzzy_provenance in Hs as [Hs|(cand & Hin & H80 & Hbest)].
  - left. now apply elem_of_filter in Hs as [Hs _].
  - right. exists cand. split; [now apply set_order_In in Hin|].
    split; [exact H80|]. intros c Hc. apply Hbest. now apply set_order_In.
Qed.

Lemma extract_skills_provenance_witness :
  exists vocab st1 nlp,
    _load_skills_master world0 initial_state = (Ok vocab, st1)
    /\ _get_nlp world0 st1
       = (Ok nlp,
          snd (extract_skills world0 typo_text 60 typo_ratio initial_state))
    /\ forall s, In s [str "python"; str "sql"] ->
         contains s (lower typo_text) = true
         \/ exists cand,
              cand ∈ candidate_phrases
                       (nlp (take (N.to_nat 100000) typo_text))
                       (lower typo_text)
              /\ (80 <= typo_ratio cand s)%Q
              /\ forall c, c ∈ vocab ->
                           (typo_ratio cand c <= typo_ratio cand s)%Q.
Proof.
  apply (extract_skills_provenance world0 typo_text 60 typo_ratio
           initial_state).
  vm_compute; reflexivity.
Defined.

(** ** The empty file *)

Lemma no_member_nil {A} (l : list A) : (forall x, ~ In x l) -> l = [].
Proof.
  destruct l as [|x l]; [reflexivity|]. intros H.
  destruct (H x). now left.
Qed.

Lemma contains_nil (s : text) : contains s [] = true -> s = [].
Proof. destruct s; [reflexivity|discriminate]. Qed.

(** X13: for an empty file read as plain text, with a pipeline that finds no
    entity and no noun chunk in the empty text and a vocabulary without the
    empty string, [parse_resume] returns the profile whose text is empty,
    whose name, phone, e-mail and years are none and whose skills and
    education are empty. *)
Theorem parse_resume_empty_file (w : world) (path : text)
    (st sa sb : state) (nlp : pipeline) (v : gset text) :
  fs w path = Some (RegularFile []) ->
  document_suffix (lower (path_suffix path)) = false ->
  _get_nlp w st = (Ok nlp, sa) ->
  ents (nlp []) = [] ->
  noun_chunks (nlp []) = [] ->
  _load_skills_master w sa = (Ok v, sb) ->
  [] ∉ v ->
  parse_resume w path st
  = (Ok (Profile [] None None None None [] []), sb).
Proof.
  intros Hfs Hsuf Hn He Hc Hl Hv.
  assert (Ht : extract_text w path = Ok []).
  { unfold extract_text. rewrite Hfs.
    apply document_suffix_false in Hsuf as [-> ->]. reflexivity. }
  assert (Ha : noun_chunks_available (take (N.to_nat 100000) [])
                 (nlp (take (N.to_nat 100000) [])) = true).
  { rewrite take_nil. unfold noun_chunks_available.
    destruct (has_dep (nlp [])); reflexivity. }
  rewrite (parse_resume_eq w path [] st sa sb nlp v Ht Hn Hl Ha).
  unfold profile_of.
  assert (Hname : name_of nlp [] = None).
  { unfold name_of. rewrite take_nil. now rewrite He. }
  assert (Hcand : candidate_phrases (nlp []) (lower []) = ∅).
  { unfold candidate_phrases. rewrite He, Hc. reflexivity. }
  assert (Hfound : forall s,
             ~ In s (set_order w (found_skills w v nlp []
                                    (token_sort_ratio w)))).
  { intros s Hs. apply set_order_In in Hs. unfold found_skills in Hs.
    rewrite take_nil in Hs. rewrite Hcand in Hs.
    rewrite (no_member_nil (set_order w ∅)) in Hs.
    - cbn [fold_left] in Hs. apply elem_of_filter in Hs as [Hs Hin].
      apply contains_nil in Hs. now subst.
    - intros x Hx. apply set_order_In in Hx.
      now apply not_elem_of_empty in Hx. }
  rewrite Hname, (no_member_nil _ Hfound). reflexivity.
Qed.

Lemma parse_resume_empty_file_witness :
  parse_resume world_empty_files (str "empty.txt") initial_state
  = (Ok (Profile [] None None None None [] []),
     State (Some (list_to_set fallback_skills)) (Some quiet_pipeline)).
Proof.
  apply (parse_resume_empty_file world_empty_files (str "empty.txt")
           initial_state (State None (Some quiet_pipeline))
           (State (Some (list_to_set fallback_skills)) (Some quiet_pipeline))
           quiet_pipeline (list_to_set fallback_skills));
    try reflexivity.
  rewrite elem_of_list_to_set, list_elem_of_In. vm_compute.
  intuition discriminate.
Defined.

(** ** The upload endpoint *)

Lemma split_on_app_sep (sep : N) (a b : text) :
  forall cur,
    split_on sep cur (a ++ sep :: b)
    = split_on sep cur a ++ split_on sep [] b.
Proof.
  induction a as [|c a IH]; intros cur; cbn [app split_on].
  - now rewrite N.eqb_refl.
  - destruct (c =? sep); [|apply IH]. cbn [app]. f_equal. apply IH.
Qed.

Lemma split_on_simple (sep : N) (b : text) :
  lacks sep b -> forall cur, split_on sep cur b = [rev cur ++ b].
Proof.
  induction 1 as [|c b Hc _ IH]; intros cur; cbn [split_on].
  - now rewrite app_nil_r.
  - destruct (N.eqb_spec c sep) as [->|_]; [congruence|].
    rewrite IH. cbn [rev]. now rewrite <- app_assoc.
Qed.

Lemma path_name_join (dir name : text) :
  lacks (ch "/") name -> name <> [] -> name <> str "." ->
  path_name (join_path dir name) = name.
Proof.
  intros Hl Hne Hdot. unfold path_name, join_path.
  rewrite split_on_app_sep, (split_on_simple _ _ Hl).
  rewrite List.filter_app. cbn [rev app List.filter].
  unfold text_eqb at 3 4.
  rewrite !bool_decide_eq_false_2 by assumption. cbn [negb andb].
  apply List.last_last.
Qed.

Lemma path_name_simple (name : text) :
  lacks (ch "/") name -> name <> [] -> name <> str "." ->
  path_name name = name.
Proof.
  intros Hl Hne Hdot. unfold path_name.
  rewrite (split_on_simple _ _ Hl). cbn [rev app List.filter].
  unfold text_eqb.
  rewrite !bool_decide_eq_false_2 by assumption. reflexivity.
Qed.

Lemma upload_accepted_name (client_filename : text) :
  upload_accepted client_filename = true ->
  lacks (ch "/") (path_name client_filename)
  /\ path_name client_filename <> []
  /\ path_name client_filename <> str "."
  /\ path_name client_filename <> str "..".
Proof.
  unfold upload_accepted. intros H. apply andb_true_iff in H as [Hne Hext].
  apply negb_true_iff, bool_decide_eq_false in Hne.
  destruct (path_name_component client_filename) as [Hl Hdot].
  repeat split; auto.
  intros E. rewrite E in Hext. vm_compute in Hext. discriminate.
Qed.


(** X14: the name under which an accepted upload is saved has no slash and
    is none of "", "." and "..", so the saved path names an entry of the
    temporary directory itself; the suffix by which [parse_resume]
    dispatches on the saved path is the suffix the endpoint checked. *)
Theorem upload_saved_name_safe (tmp_dir client_filename : text) :
  upload_accepted client_filename = true ->
  lacks (ch "/") (path_name client_filename)
  /\ path_name client_filename <> []
  /\ path_name client_filename <> str "."
  /\ path_name client_filename <> str ".."
  /\ path_name (join_path tmp_dir (path_name client_filename))
     = path_name client_filename
  /\ path_suffix (join_path tmp_dir (path_name client_filename))
     = path_suffix (path_name client_filename)
  /\ In (lower (path_suffix (join_path tmp_dir (path_name client_filename))))
        allowed_upload_suffixes.
Proof.
  intros H. pose proof H as (Hl & Hne & Hdot & Hdd)%upload_accepted_name.
  repeat split; auto.
  - now apply path_name_join.
  - unfold path_suffix.
    now rewrite (path_name_join tmp_dir _ Hl Hne Hdot),
      (path_name_simple _ Hl Hne Hdot).
  - unfold upload_accepted in H. apply andb_true_iff in H as [_ Hext].
    apply existsb_exists in Hext as (x & Hx & Heq).
    apply bool_decide_eq_true in Heq. subst x.
    unfold path_suffix at 1.
    rewrite (path_name_join tmp_dir _ Hl Hne Hdot).
    unfold path_suffix in Hx.
    now rewrite (path_name_simple _ Hl Hne Hdot) in Hx.
Qed.

Lemma upload_saved_name_safe_witness :
  lacks (ch "/") (path_name (str "../../etc/cv.PDF"))
  /\ path_name (str "../../etc/cv.PDF") <> []
  /\ path_name (str "../../etc/cv.PDF") <> str "."
  /\ path_name (str "../../etc/cv.PDF") <> str ".."
  /\ path_name (join_path (str "/tmp") (path_name (str "../../etc/cv.PDF")))
     = path_name (str "../../etc/cv.PDF")
  /\ path_suffix (join_path (str "/tmp")
                    (path_name (str "../../etc/cv.PDF")))
     = path_suffix (path_name (str "../../etc/cv.PDF"))
  /\ In (lower (path_suffix (join_path (str "/tmp")
                               (path_name (str "../../etc/cv.PDF")))))
        allowed_upload_suffixes.
Proof.
  apply (upload_saved_name_safe (str "/tmp") (str "../../etc/cv.PDF")).
  vm_compute; reflexivity.
Defined.

Lemma upload_resume_rejected (os : os_calls) (w : world)
    (tmp_dir client_filename : text) (content : list byte) (st : state) :
  upload_accepted client_filename = false ->
  exists detail,
    upload_resume os w tmp_dir client_filename content st
    = (HTTP400 detail, st, fs w).
Proof.
  unfold upload_accepted, upload_resume.
  destruct (text_eqb (path_name client_filename) []); [eauto|].
  cbn [negb andb]. intros ->. cbn [negb]. eauto.
Qed.

Lemma upload_resume_accepted (os : os_calls) (w : world)
    (tmp_dir client_filename : text) (content : list byte) (st : state) :
  upload_accepted client_filename = true ->
  upload_resume os w tmp_dir client_filename content st
  = let save_path := join_path tmp_dir (path_name client_filename) in
    match open_write os (fs w) save_path content with
    | (Some e, f1) => (HTTP500 e, st, cleanup os f1 save_path)
    | (None, f1) =>
        match parse_resume (with_fs w f1) save_path st with
        | (Ok p, st') => (Returned p, st', cleanup os f1 save_path)
        | (Raise e, st') => (HTTP500 e, st', cleanup os f1 save_path)
        end
    end.
Proof.
  unfold upload_accepted, upload_resume.
  destruct (text_eqb (path_name client_filename) []); [discriminate|].
  cbn [negb andb]. now intros ->.
Qed.

Lemma plain_os_local : local_os plain_os.
Proof.
  intros f p q Hq. unfold plain_os, plain_write, plain_remove.
  cbn [open_write os_remove]. unfold text_eqb. split.
  - intros content. destruct (f p) as [[|bs|e]|]; cbn [snd];
      try reflexivity; now rewrite bool_decide_eq_false_2.
  - destruct (f p) as [[|bs|e]|]; cbn [snd];
      try reflexivity; now rewrite bool_decide_eq_false_2.
Qed.

Lemma plain_os_removes_files : removes_files plain_os.
Proof.
  intros f p Hd. unfold plain_os, plain_remove. cbn [os_remove].
  unfold text_eqb.
  destruct (f p) as [[|bs|e]|] eqn:E; cbn [snd];
    try congruence; now rewrite bool_decide_eq_true_2.
Qed.

Lemma plain_os_writes_content : writes_content plain_os.
Proof.
  intros f f1 p content. unfold plain_os, plain_write. cbn [open_write].
  unfold text_eqb.
  destruct (f p) as [[|bs|e]|]; intros H; try discriminate;
    injection H as <-; now rewrite bool_decide_eq_true_2.
Qed.

(** X15: a rejected upload (answer 400) changes neither the files nor the
    globals.  For an accepted upload the answer is never a 400, and the file
    system that is left is the one of the [finally] block run on what the
    write left: [os.remove] is called when the save path exists then,
    whether writing and parsing succeeded or failed, and its error is
    ignored.  On an operating system whose two calls change no path but
    their own the upload changes no path but the save path; where
    [os.remove] leaves nothing at a path that is not a directory, nothing
    remains at the save path unless the write left a directory there. *)
Theorem upload_resume_leaves_no_file (os : os_calls) (w : world)
    (tmp_dir client_filename : text) (content : list byte)
    (st st' : state) (resp : response) (f' : filesystem) :
  upload_resume os w tmp_dir client_filename content st = (resp, st', f') ->
  let save_path := join_path tmp_dir (path_name client_filename) in
  let written := snd (open_write os (fs w) save_path content) in
  (upload_accepted client_filename = false ->
   f' = fs w /\ st' = st /\ exists detail, resp = HTTP400 detail)
  /\ (upload_accepted client_filename = true ->
      (forall detail, resp <> HTTP400 detail)
      /\ f' = cleanup os written save_path
      /\ (local_os os -> forall q, q <> save_path -> f' q = fs w q)
      /\ (removes_files os -> written save_path <> Some Directory ->
          f' save_path = None)).
Proof.
  intros H save_path written.
  destruct (upload_accepted client_filename) eqn:Ea.
  - split; [discriminate|]. intros _.
    rewrite (upload_resume_accepted _ _ _ _ _ _ Ea) in H. cbn zeta in H.
    fold save_path in H.
    assert (Hres : (forall d, resp <> HTTP400 d)
                   /\ f' = cleanup os written save_path).
    { subst written.
      destruct (open_write os (fs w) save_path content) as [[e|] f1].
      - injection H as <- _ <-. now split.
      - cbn [snd].
        destruct (parse_resume (with_fs w f1) save_path st) as [[p|e] st1];
          injection H as <- _ <-; now split. }
    destruct Hres as [Hr Hf]. split; [exact Hr|]. split; [exact Hf|].
    subst f'. unfold cleanup. split.
    + intros Hloc q Hq.
      assert (Hw : written q = fs w q).
      { subst written. now apply (Hloc (fs w) save_path q Hq). }
      destruct (written save_path); [|exact Hw].
      rewrite <- Hw. now apply (Hloc written save_path q Hq).
    + intros Hrm Hd. destruct (written save_path) eqn:E; [|exact E].
      apply Hrm. congruence.
  - destruct (upload_resume_rejected os w tmp_dir client_filename content
                st Ea) as (d & Hrej).
    rewrite Hrej in H. injection H as <- <- <-.
    split; [|discriminate]. intros _. repeat split. now exists d.
Qed.

Lemma upload_resume_leaves_no_file_witness :
  snd (upload_resume plain_os world_upload (str "/tmp") (str "notes.txt")
         (bytes_of "new notes") initial_state) (str "/tmp/notes.txt")
  = None
  /\ snd (upload_resume plain_os world_upload (str "/tmp") (str "notes.txt")
            (bytes_of "new notes") initial_state) (str "/tmp/cv.txt")
     = Some Directory.
Proof.
  destruct (upload_resume_leaves_no_file plain_os world_upload (str "/tmp")
              (str "notes.txt") (bytes_of "new notes") initial_state
              (snd (fst (upload_resume plain_os world_upload (str "/tmp")
                           (str "notes.txt") (bytes_of "new notes")
                           initial_state)))
              (fst (fst (upload_resume plain_os world_upload (str "/tmp")
                           (str "notes.txt") (bytes_of "new notes")
                           initial_state)))
              (snd (upload_resume plain_os world_upload (str "/tmp")
                      (str "notes.txt") (bytes_of "new notes")
                      initial_state)))
    as (_ & H).
  - now destruct (upload_resume plain_os world_upload (str "/tmp")
                    (str "notes.txt") (bytes_of "new notes") initial_state)
      as [[r s] f].
  - destruct (H eq_refl) as (_ & _ & Hframe & Hgone). split.
    + apply (Hgone plain_os_removes_files). vm_compute. discriminate.
    + rewrite (Hframe plain_os_local (str "/tmp/cv.txt")).
      * vm_compute; reflexivity.
      * vm_compute. discriminate.
Defined.



(** ** The vocabulary read from a list *)

Lemma normalized_set_raise (l : list json_entry) :
  In (JOther true) l -> normalized_set l = Raise AttributeError.
Proof.
  induction l as [|e l IH]; intros H; [destruct H|].
  cbn [normalized_set]. destruct H as [->|H]; [reflexivity|].
  destruct (truthy e); [|now apply IH].
  destruct e as [s|b]; [|reflexivity]. now rewrite IH.
Qed.

Lemma normalized_set_ok (l : list json_entry) :
  ~ In (JOther true) l -> exists v, normalized_set l = Ok v.
Proof.
  induction l as [|e l IH]; intros H; [now exists ∅|].
  cbn [normalized_set].
  destruct IH as [v Hv]; [intros Hin; apply H; now right|].
  destruct e as [s|[|]]; cbn [truthy].
  - rewrite Hv. destruct (negb (length s =? 0)%nat); eauto.
  - destruct H. now left.
  - eauto.
Qed.

(** X17: when the skills file holds a list, the first call of the loader
    raises [AttributeError] if an entry is true and not a string, and
    stores nothing; otherwise it stores and returns the set of the
    trimmed, lower-cased forms of the entries that are non-empty
    strings. *)
Theorem load_skills_master_from_list (w : world) (st : state)
    (l : list json_entry) :
  _skills_master st = None ->
  skills_file w = Some (Ok (JList l)) ->
  (In (JOther true) l ->
   _load_skills_master w st = (Raise AttributeError, st))
  /\ (~ In (JOther true) l ->
      exists v,
        _load_skills_master w st = (Ok v, State (Some v) (_nlp st))
        /\ forall x, x ∈ v <-> exists s, In (JString s) l /\ s <> []
                                         /\ x = lower (strip s)).
Proof.
  intros Hc Hf. unfold _load_skills_master, read_skills_master.
  rewrite Hc, Hf. cbn [skills_of]. split.
  - intros H. now rewrite (normalized_set_raise l H).
  - intros H. destruct (normalized_set_ok l H) as [v Hv].
    rewrite Hv. exists v. split; [reflexivity|].
    intros x. now apply normalized_set_members.
Qed.

Lemma load_skills_master_from_list_witness :
  exists v,
    _load_skills_master world_blank_skill initial_state
    = (Ok v, State (Some v) None)
    /\ forall x, x ∈ v <-> exists s,
                   In (JString s) [JString (str "   "); JString (str " SQL ")]
                   /\ s <> [] /\ x = lower (strip s).
Proof.
  apply (load_skills_master_from_list world_blank_skill initial_state
           [JString (str "   "); JString (str " SQL ")]).
  - reflexivity.
  - reflexivity.
  - intros [H|[H|[]]]; discriminate H.
Defined.
